(** * Directory synchronisation ([src/copy.ts]): model and properties

    The module under study keeps one module-level variable
    ([rsyncAvailable]) and talks to the outside world through three
    imported interfaces: Node's [fs] and [path], and Bun's shell [$].
    The embedding below is parametric in those interfaces (type class
    [Platform]); the functions of [copy.ts] are written once, in a
    state-and-exception monad over the process state, and are afterwards
    run on two platforms: a POSIX file system in memory and a scripted
    test double.  One call runs at a time: an [await] of the source is a
    sequencing point and nothing else. *)

From Stdlib Require Import ZArith String Ascii List Bool Lia.
From stdpp Require Import base strings pretty list.

Local Open Scope Z_scope.
Local Open Scope string_scope.
Local Open Scope list_scope.

(** ** JavaScript values that cross the interfaces *)

(** A value caught by [catch (err)]: an instance of [Error] with its
    [message], or any other thrown value with its [String(err)] text. *)
Inductive exn :=
| JsError (message : string)
| JsThrown (text : string).

(** [err instanceof Error ? err.message : String(err)] (copy.ts:120). *)
Definition errorMessage (err : exn) : string :=
  match err with
  | JsError message => message
  | JsThrown text => text
  end.

(** How a call ends: it returns a value or it throws. *)
Inductive completion (A : Type) :=
| Return (a : A)
| Throw (e : exn).
Arguments Return {A} a.
Arguments Throw {A} e.

(** The three predicates of [fs.Stats] that [copy.ts] consults. *)
Record Stats := {
  isDirectory : bool;
  isFile : bool;
  isSymbolicLink : bool
}.

(** What an awaited [$`...`.quiet()] resolves to. *)
Record ShellOutput := {
  exitCode : Z;
  stderr : string
}.

(** [String.prototype.startsWith]. *)
Definition startsWith (s search : string) : bool := String.prefix search s.

(** ** The imported interfaces

    [W] is the state of the world outside the module (file system,
    working directory, installed programs).  Calls that only read are
    functions of the world; calls that write return the next world as
    well, also when they throw (a recursive copy or removal can fail half
    way).  The options are the ones [copy.ts] passes:
    [mkdirSync(p, {recursive: true})],
    [rmSync(p, {recursive: true, force: true})],
    [cpSync(s, t, {recursive: true})].  [shell argv] is one awaited
    [$`...`.quiet()] command with its interpolated arguments.
    [sepChar] is the one character of [path.sep]. *)
Class Platform (W : Type) := {
  sepChar : ascii;
  resolve : W → string → string;
  dirname : string → string;
  statSync : string → W → completion Stats;
  lstatSync : string → W → completion Stats;
  existsSync : string → W → bool;
  unlinkSync : string → W → completion unit * W;
  rmSync : string → W → completion unit * W;
  mkdirSync : string → W → completion unit * W;
  cpSync : string → string → W → completion unit * W;
  shell : list string → W → completion ShellOutput * W
}.

(** [path.sep]: the platform's separator character, as a string. *)
Definition sep {W} `{Platform W} : string := String sepChar "".

(** ** Process state *)

(** Modelled from the spec: the module [./logging] is not part of the
    sources at hand.  Its two sinks [logDebug] and [logError] are
    "fire-and-forget, no return value consumed"; each call is recorded,
    in order, with its message. *)
Inductive LogEntry :=
| Debug (message : string)
| Error (message : string).

(** [rsyncAvailable] is the module-level [let] of copy.ts:7
    ([boolean | null], initially [null]); [os] is the outside world;
    [logged] is what the two sinks have received so far. *)
Record Process (W : Type) := {
  rsyncAvailable : option bool;
  os : W;
  logged : list LogEntry
}.
Arguments rsyncAvailable {W} _.
Arguments os {W} _.
Arguments logged {W} _.

(** The process with cache [c] and log [l], in the world [w]. *)
Definition at_world {W} (c : option bool) (l : list LogEntry) (w : W) : Process W :=
  {| rsyncAvailable := c; os := w; logged := l |}.

(** The state of a freshly loaded module. *)
Definition boot {W} (w : W) : Process W :=
  {| rsyncAvailable := None; os := w; logged := [] |}.

(** ** The monad of module code: process state and exceptions *)

Definition M (W A : Type) : Type := Process W → completion A * Process W.

Definition ret {W A} (a : A) : M W A := λ st, (Return a, st).

Definition throw {W A} (e : exn) : M W A := λ st, (Throw e, st).

Definition bind {W A B} (m : M W A) (k : A → M W B) : M W B :=
  λ st, match m st with
        | (Return a, st') => k a st'
        | (Throw e, st') => (Throw e, st')
        end.

(** [try { body } catch (err) { handler }] *)
Definition tryCatch {W A} (body : M W A) (handler : exn → M W A) : M W A :=
  λ st, match body st with
        | (Return a, st') => (Return a, st')
        | (Throw e, st') => handler e st'
        end.

Declare Scope js_scope.
Delimit Scope js_scope with js.
Notation "'let*' x ':=' m 'in' k" := (bind m (λ x, k))
  (at level 10, x name, m at level 100, k at level 200) : js_scope.
Notation "m >> k" := (bind m (λ _, k))
  (at level 100, right associativity) : js_scope.
Local Open Scope js_scope.

Section Module.
Context {W : Type} `{Platform W}.

(** A read-only call of the platform. *)
Definition peek {A} (f : W → A) : M W A := λ st, (Return (f (os st)), st).

(** A read-only call of the platform that may throw. *)
Definition query {A} (f : W → completion A) : M W A := λ st, (f (os st), st).

(** A call of the platform that may change the world. *)
Definition perform {A} (f : W → completion A * W) : M W A :=
  λ st, let '(r, w') := f (os st) in
        (r, {| rsyncAvailable := rsyncAvailable st; os := w'; logged := logged st |}).

(** Reading and assigning the module variable. *)
Definition readCache : M W (option bool) := λ st, (Return (rsyncAvailable st), st).

Definition writeCache (value : option bool) : M W unit :=
  λ st, (Return tt, {| rsyncAvailable := value; os := os st; logged := logged st |}).

Definition emit (entry : LogEntry) : M W unit :=
  λ st, (Return tt, {| rsyncAvailable := rsyncAvailable st; os := os st;
                       logged := logged st ++ [entry] |}).

Definition logDebug (message : string) : M W unit := emit (Debug message).
Definition logError (message : string) : M W unit := emit (Error message).

(** *** copy.ts:13-26

    The function returns the module variable itself, so its result has
    the variable's type [boolean | null]. *)
Definition detectRsync : M W (option bool) :=
  let* cached := readCache in
  match cached with
  | Some _ => ret cached
  | None =>
      tryCatch
        (let* result := perform (shell ["which"; "rsync"]) in
         writeCache (Some (exitCode result =? 0)%Z))
        (λ _, writeCache (Some false)) >>
      readCache
  end.

(** *** copy.ts:35-46 *)
Definition copyWithRsync (source target : string) : M W unit :=
  perform (mkdirSync (dirname target)) >>
  let* result := perform (shell ["rsync"; "-a"; "--delete"; source +:+ "/"; target +:+ "/"]) in
  if negb (exitCode result =? 0)%Z
  then throw (JsError ("rsync failed: " +:+ stderr result))
  else ret tt.

(** The removal block that occurs twice, at copy.ts:57-64 and at
    copy.ts:133-140. *)
Definition removeExisting (target : string) : M W unit :=
  let* present := peek (existsSync target) in
  if present : bool then
    let* stat := query (lstatSync target) in
    if isSymbolicLink stat || isFile stat
    then perform (unlinkSync target)
    else perform (rmSync target)
  else ret tt.

(** *** copy.ts:55-71 *)
Definition copyWithNodeFs (source target : string) : M W unit :=
  removeExisting target >>
  perform (mkdirSync (dirname target)) >>
  perform (cpSync source target).

(** *** copy.ts:73-76 *)
Inductive Method := rsync | fs.
Record SyncDirectoryResult := { method : Method }.

(** The four validation errors, under the names the specification
    gives them, with the messages of copy.ts:96, 99, 106 and 109. *)
Definition SourceNotFound (source : string) : exn :=
  JsError ("Source does not exist: " +:+ source).
Definition SourceNotDirectory (source : string) : exn :=
  JsError ("Source is not a directory: " +:+ source).
Definition TargetInsideSource (source target : string) : exn :=
  JsError ("Target cannot be inside source: " +:+ target +:+ " is inside " +:+ source).
Definition SourceInsideTarget (source target : string) : exn :=
  JsError ("Source cannot be inside target: " +:+ source +:+ " is inside " +:+ target).

(** *** copy.ts:91-100 *)
Definition validateSource (source : string) : M W unit :=
  let* sourceStat := tryCatch (query (statSync source))
                              (λ _, throw (SourceNotFound source)) in
  if negb (isDirectory sourceStat)
  then throw (SourceNotDirectory source)
  else ret tt.

(** *** copy.ts:102-110 *)
Definition checkOverlap (source target : string) : M W unit :=
  let* resolvedSource := peek (λ w, resolve w source) in
  let* resolvedTarget := peek (λ w, resolve w target) in
  if startsWith resolvedTarget (resolvedSource +:+ sep)
  then throw (TargetInsideSource source target)
  else if startsWith resolvedSource (resolvedTarget +:+ sep)
  then throw (SourceInsideTarget source target)
  else ret tt.

(** *** copy.ts:114-124

    [Some r] stands for the [return r] inside the [try]; [None] for
    falling out of the [catch] towards the fallback. *)
Definition tryRsync (source target : string) : M W (option SyncDirectoryResult) :=
  tryCatch
    (copyWithRsync source target >>
     logDebug ("Copied " +:+ source +:+ " → " +:+ target +:+ " using rsync") >>
     ret (Some {| method := rsync |}))
    (λ err,
       logError ("rsync failed, falling back to fs: " +:+ errorMessage err) >>
       ret None).

(** *** copy.ts:131-143 *)
Definition cleanupPartial (target : string) : M W unit :=
  tryCatch (removeExisting target) (λ _, ret tt).

(** *** copy.ts:126-145 *)
Definition fsFallback (source target : string) : M W SyncDirectoryResult :=
  tryCatch
    (copyWithNodeFs source target >>
     logDebug ("Copied " +:+ source +:+ " → " +:+ target +:+ " using fs.cpSync") >>
     ret {| method := fs |})
    (λ err, cleanupPartial target >> throw err).

(** What JavaScript's [if (hasRsync)] tests. *)
Definition truthy (v : option bool) : bool :=
  match v with Some true => true | _ => false end.

(** *** copy.ts:112-124

    The availability query and, when it says so, the attempt with the
    external tool. *)
Definition firstChoice (source target : string) : M W (option SyncDirectoryResult) :=
  let* hasRsync := detectRsync in
  if truthy hasRsync then tryRsync source target else ret None.

(** *** copy.ts:112-145 *)
Definition runStrategies (source target : string) : M W SyncDirectoryResult :=
  let* attempt := firstChoice source target in
  match attempt with
  | Some result => ret result
  | None => fsFallback source target
  end.

(** *** copy.ts:87-146 *)
Definition syncDirectory (source target : string) : M W SyncDirectoryResult :=
  validateSource source >>
  checkOverlap source target >>
  runStrategies source target.

(** *** copy.ts:152-154 *)
Definition resetRsyncCache : M W unit := writeCache None.

(** *** copy.ts:162-164 *)
Definition setRsyncAvailable (value : option bool) : M W unit := writeCache value.

(** ** Vocabulary of the specification *)

(** "Strict descendant: a path whose resolved absolute form begins
    with another path's resolved absolute form followed by a path
    separator."  Both arguments are resolved forms. *)
Definition strictDescendant (inner outer : string) : bool :=
  startsWith inner (outer +:+ sep).

(** A call that no validation step rejects: the source can be
    stat-ed and is a directory, and neither resolved path is a strict
    descendant of the other. *)
Definition passesValidation (source target : string) (w : W) : bool :=
  match statSync source w with
  | Return s =>
      isDirectory s
      && negb (strictDescendant (resolve w target) (resolve w source))
      && negb (strictDescendant (resolve w source) (resolve w target))
  | Throw _ => false
  end.

(** What the probe's outcome means for availability: "available if
    the probe exits successfully, otherwise unavailable (including on
    probe error)". *)
Definition probeVerdict (outcome : completion ShellOutput) : bool :=
  match outcome with
  | Return result => (exitCode result =? 0)%Z
  | Throw _ => false
  end.

(** The operations the module exports, and the process state each
    leaves behind. *)
Inductive Call :=
| CallDetect
| CallSync (source target : string)
| CallReset
| CallOverride (value : option bool).

Definition after (c : Call) (st : Process W) : Process W :=
  match c with
  | CallDetect => snd (detectRsync st)
  | CallSync source target => snd (syncDirectory source target st)
  | CallReset => snd (resetRsyncCache st)
  | CallOverride value => snd (setRsyncAvailable value st)
  end.

Definition afterAll (cs : list Call) (st : Process W) : Process W :=
  fold_left (λ st' c, after c st') cs st.

(** The two test-support operations, which assign the cache directly. *)
Definition assignsCache (c : Call) : bool :=
  match c with
  | CallReset | CallOverride _ => true
  | CallDetect | CallSync _ _ => false
  end.

(** An action that leaves one component of the process state as it
    found it, however it ends. *)
Definition preserves {A X} (field : Process W → X) (m : M W A) : Prop :=
  ∀ st, field (snd (m st)) = field st.

End Module.

(** The platform [P], except that commands are run by [sh]. *)
Definition withShell {W} (P : Platform W)
    (sh : list string → W → completion ShellOutput * W) : Platform W :=
  Build_Platform W (@sepChar W P) (@resolve W P) (@dirname W P) (@statSync W P)
    (@lstatSync W P) (@existsSync W P) (@unlinkSync W P) (@rmSync W P)
    (@mkdirSync W P) (@cpSync W P) sh.

(** ** A POSIX file system in memory

    The first platform the module is run on.  A directory is the list
    of its entries in creation order; a symbolic link keeps the text it
    was created with.  Locations are lists of names from the root. *)
Module Posix.

#[local] Set Warnings "-register-all".

Inductive node :=
| File (data : string)
| Link (dest : string)
| Directory (entries : list (string * node)).

(** How the installed [rsync] behaves: not installed, working, or
    ending every run with the given non-zero exit status and error
    text. *)
Inductive Tool :=
| Absent
| Works
| Fails (code : positive) (message : string).

(** [nothrow] is Bun's [$.nothrow()] switch: when it is off (the
    default) a command that exits non-zero makes the awaited [$] throw. *)
Record World := {
  cwd : list string;
  root : node;
  tool : Tool;
  nothrow : bool
}.

(** *** Trees *)

Fixpoint child (name : string) (entries : list (string * node)) : option node :=
  match entries with
  | [] => None
  | (n, c) :: rest => if String.eqb n name then Some c else child name rest
  end.

Fixpoint set_child (name : string) (new : node) (entries : list (string * node))
  : list (string * node) :=
  match entries with
  | [] => [(name, new)]
  | (n, c) :: rest =>
      if String.eqb n name then (n, new) :: rest
      else (n, c) :: set_child name new rest
  end.

Fixpoint del_child (name : string) (entries : list (string * node))
  : list (string * node) :=
  match entries with
  | [] => []
  | (n, c) :: rest =>
      if String.eqb n name then rest else (n, c) :: del_child name rest
  end.

(** The node at a location, without following links. *)
Fixpoint get (loc : list string) (tree : node) : option node :=
  match loc with
  | [] => Some tree
  | name :: loc' =>
      match tree with
      | Directory entries =>
          match child name entries with
          | Some c => get loc' c
          | None => None
          end
      | _ => None
      end
  end.

(** Write [new] at a location whose parent is a directory. *)
Fixpoint put (loc : list string) (new : node) (tree : node) : node :=
  match loc with
  | [] => new
  | name :: loc' =>
      match tree with
      | Directory entries =>
          match loc' with
          | [] => Directory (set_child name new entries)
          | _ =>
              match child name entries with
              | Some c => Directory (set_child name (put loc' new c) entries)
              | None => tree
              end
          end
      | _ => tree
      end
  end.

(** Remove the entry at a location, with everything below it. *)
Fixpoint del (loc : list string) (tree : node) : node :=
  match loc with
  | [] => tree
  | name :: loc' =>
      match tree with
      | Directory entries =>
          match loc' with
          | [] => Directory (del_child name entries)
          | _ =>
              match child name entries with
              | Some c => Directory (set_child name (del loc' c) entries)
              | None => tree
              end
          end
      | _ => tree
      end
  end.

(** *** Path strings *)

Definition slash : ascii := "/"%char.

(** [s.split("/")] *)
Fixpoint split (s : string) : list string :=
  match s with
  | EmptyString => [EmptyString]
  | String c s' =>
      if Ascii.eqb c slash then EmptyString :: split s'
      else match split s' with
           | h :: t => String c h :: t
           | [] => [String c EmptyString]
           end
  end.

Definition absolute (p : string) : bool :=
  match p with
  | String c _ => Ascii.eqb c slash
  | EmptyString => false
  end.

(** A component that names the directory it is read in. *)
Definition stays (name : string) : bool :=
  String.eqb name "" || String.eqb name ".".

(** Lexical normalisation, as [path.resolve] does it: [.] and empty
    components vanish, [..] drops the component before it. *)
Fixpoint normalize (stack : list string) (names : list string) : list string :=
  match names with
  | [] => stack
  | name :: rest =>
      if stays name then normalize stack rest
      else if String.eqb name ".." then normalize (removelast stack) rest
      else normalize (stack ++ [name]) rest
  end.

Fixpoint join (loc : list string) : string :=
  match loc with
  | [] => ""
  | name :: rest => "/" +:+ name +:+ join rest
  end.

(** The absolute path string of a location. *)
Definition render (loc : list string) : string :=
  match loc with
  | [] => "/"
  | _ => join loc
  end.

(** [path.resolve(p)] with one argument: relative paths start at the
    working directory; the result is absolute and normalised. *)
Definition resolve (w : World) (p : string) : string :=
  render (normalize (if absolute p then [] else cwd w) (split p)).

(** The backwards scan of [path.dirname]: [scanned] holds the
    characters from the end of the path down to index 1, and the
    result is what precedes the slash that ends the directory part
    (still reversed), if there is one. *)
Fixpoint dirname_scan (matchedSlash : bool) (scanned : list ascii) : option (list ascii) :=
  match scanned with
  | [] => None
  | c :: before =>
      if Ascii.eqb c slash
      then if matchedSlash then dirname_scan true before else Some before
      else dirname_scan false before
  end.

(** [path.dirname(p)] (POSIX). *)
Definition dirname (p : string) : string :=
  match list_ascii_of_string p with
  | [] => "."
  | first :: others =>
      let hasRoot := Ascii.eqb first slash in
      match dirname_scan true (rev others) with
      | None => if hasRoot then "/" else "."
      | Some before =>
          if hasRoot && bool_decide (before = [])
          then "//"
          else string_of_list_ascii (first :: rev before)
      end
  end.

(** *** Path resolution by the kernel *)

(** The number of links one resolution may follow. *)
Definition SYMLOOP_MAX : nat := 40.

(** The location a path names, from directory [cur]: every component
    but the last must lead into a directory; the last one is not
    followed and need not exist.  [follow] continues the walk where a
    link inside the path points. *)
Fixpoint walk (follow : list string → list string → option (list string))
    (tree : node) (cur : list string) (names : list string) : option (list string) :=
  match names with
  | [] => Some cur
  | name :: rest =>
      if stays name then walk follow tree cur rest
      else if String.eqb name ".." then walk follow tree (removelast cur) rest
      else
        let here := cur ++ [name] in
        match get here tree with
        | Some (Directory _) => walk follow tree here rest
        | Some (Link dest) =>
            match rest with
            | [] => Some here
            | _ => follow (if absolute dest then [] else cur) (split dest ++ rest)
            end
        | Some (File _) =>
            match rest with
            | [] => Some here
            | _ => None
            end
        | None => if forallb stays rest then Some here else None
        end
  end.

(** [fuel] bounds the links that may be followed on the way. *)
Fixpoint locate (fuel : nat) (tree : node) (cur : list string) (names : list string)
  : option (list string) :=
  walk (match fuel with
        | O => λ _ _, None
        | S fuel' => locate fuel' tree
        end) tree cur names.

(** The location a path leads to when its last component is followed
    as well; that location exists. *)
Fixpoint realpath (fuel : nat) (tree : node) (cur : list string) (names : list string)
  : option (list string) :=
  match locate fuel tree cur names with
  | Some loc =>
      match get loc tree with
      | Some (Link dest) =>
          match fuel with
          | O => None
          | S fuel' =>
              realpath fuel' tree (if absolute dest then [] else removelast loc)
                       (split dest)
          end
      | Some _ => Some loc
      | None => None
      end
  | None => None
  end.

(** The empty path names nothing. *)
Definition lookup (follow : bool) (w : World) (p : string) : option (list string) :=
  if String.eqb p "" then None
  else (if follow then realpath else locate)
         SYMLOOP_MAX (root w) (if absolute p then [] else cwd w) (split p).

(** *** Node's [fs] on this file system *)

Definition stats_of (n : node) : Stats :=
  match n with
  | File _ => {| isDirectory := false; isFile := true; isSymbolicLink := false |}
  | Link _ => {| isDirectory := false; isFile := false; isSymbolicLink := true |}
  | Directory _ => {| isDirectory := true; isFile := false; isSymbolicLink := false |}
  end.

(** The errors of [fs], as Node words them. *)
Definition fsError (code syscall path : string) : exn :=
  JsError (code +:+ ", " +:+ syscall +:+ " '" +:+ path +:+ "'").
Definition ENOENT := fsError "ENOENT: no such file or directory".
Definition ENOTDIR := fsError "ENOTDIR: not a directory".
Definition EISDIR := fsError "EISDIR: illegal operation on a directory".
Definition EEXIST := fsError "EEXIST: file already exists".
Definition EINVAL := fsError "EINVAL: invalid argument".

Definition with_root (w : World) (tree : node) : World :=
  {| cwd := cwd w; root := tree; tool := tool w; nothrow := nothrow w |}.

Definition stat_with (follow : bool) (syscall : string) (p : string) (w : World)
  : completion Stats :=
  match lookup follow w p with
  | Some loc =>
      match get loc (root w) with
      | Some n => Return (stats_of n)
      | None => Throw (ENOENT syscall p)
      end
  | None => Throw (ENOENT syscall p)
  end.

Definition statSync : string → World → completion Stats := stat_with true "stat".
Definition lstatSync : string → World → completion Stats := stat_with false "lstat".

Definition existsSync (p : string) (w : World) : bool :=
  match statSync p w with
  | Return _ => true
  | Throw _ => false
  end.

Definition unlinkSync (p : string) (w : World) : completion unit * World :=
  match lookup false w p with
  | Some loc =>
      match get loc (root w) with
      | Some (Directory _) => (Throw (EISDIR "unlink" p), w)
      | Some _ => (Return tt, with_root w (del loc (root w)))
      | None => (Throw (ENOENT "unlink" p), w)
      end
  | None => (Throw (ENOENT "unlink" p), w)
  end.

(** [rmSync(p, {recursive: true, force: true})]: a path that names
    nothing is not an error; removing the root empties it. *)
Definition rmSync (p : string) (w : World) : completion unit * World :=
  match lookup false w p with
  | Some [] => (Return tt, with_root w (Directory []))
  | Some loc =>
      match get loc (root w) with
      | Some _ => (Return tt, with_root w (del loc (root w)))
      | None => (Return tt, w)
      end
  | None => (Return tt, w)
  end.

(** [mkdir -p]: walk the components, creating the directories that
    are missing; [None] when a component is a file or a link that
    does not lead to a directory. *)
Fixpoint mkdirp (tree : node) (cur : list string) (names : list string) : option node :=
  match names with
  | [] => Some tree
  | name :: rest =>
      if stays name then mkdirp tree cur rest
      else if String.eqb name ".." then mkdirp tree (removelast cur) rest
      else
        let here := cur ++ [name] in
        match get here tree with
        | None => mkdirp (put here (Directory []) tree) here rest
        | Some (Directory _) => mkdirp tree here rest
        | Some (Link _) =>
            match realpath SYMLOOP_MAX tree cur [name] with
            | Some loc =>
                match get loc tree with
                | Some (Directory _) => mkdirp tree loc rest
                | _ => None
                end
            | None => None
            end
        | Some (File _) => None
        end
  end.

(** [mkdirSync(p, {recursive: true})] *)
Definition mkdirSync (p : string) (w : World) : completion unit * World :=
  if String.eqb p "" then (Throw (ENOENT "mkdir" p), w)
  else
    match mkdirp (root w) (if absolute p then [] else cwd w) (split p) with
    | Some tree => (Return tt, with_root w tree)
    | None => (Throw (EEXIST "mkdir" p), w)
    end.

(** The entries [todo] of a source directory, copied one after the
    other by [copy] into the entries [done] of the destination; the
    copy stops at the first error. *)
Definition graft_entries
    (copy : string → node → option node → option exn * option node) (p : string)
  : list (string * node) → list (string * node) → option exn * list (string * node) :=
  fix each (todo done : list (string * node)) :=
    match todo with
    | [] => (None, done)
    | (name, c) :: todo' =>
        match copy (p +:+ "/" +:+ name) c (child name done) with
        | (None, Some c') => each todo' (set_child name c' done)
        | (None, None) => each todo' done
        | (Some e, Some c') => (Some e, set_child name c' done)
        | (Some e, None) => (Some e, done)
        end
    end.

(** Copy the node [s] to a place that holds [d].  Files overwrite
    files and links, directories merge into directories entry by
    entry and keep the entries that the source does not have; the
    other combinations are errors.  The second component is what the
    place holds when the copy stops. *)
Fixpoint graft (p : string) (s : node) (d : option node) : option exn * option node :=
  match s with
  | File data =>
      match d with
      | Some (Directory _) =>
          (Some (JsError ("Cannot overwrite directory with non-directory: " +:+ p)), d)
      | _ => (None, Some (File data))
      end
  | Link dest =>
      match d with
      | Some (Directory _) =>
          (Some (JsError ("Cannot overwrite directory with non-directory: " +:+ p)), d)
      | Some (File _) => (Some (EEXIST "symlink" p), d)
      | _ => (None, Some (Link dest))
      end
  | Directory entries =>
      match d with
      | Some (File _) | Some (Link _) =>
          (Some (JsError ("Cannot overwrite non-directory with directory: " +:+ p)), d)
      | _ =>
          let '(failure, merged) :=
            graft_entries graft p entries
              (match d with Some (Directory present) => present | _ => [] end) in
          (failure, Some (Directory merged))
      end
  end.

(** Is [a] a prefix of [b]? *)
Fixpoint within (a b : list string) : bool :=
  match a, b with
  | [], _ => true
  | x :: a', y :: b' => String.eqb x y && within a' b'
  | _ :: _, [] => false
  end.

(** [cpSync(src, dest, {recursive: true})]: the source is not
    followed; source and destination must not be the same entry, a
    directory is not copied below itself, the parent of the
    destination is created, and then the source is grafted on the
    destination. *)
Definition cpSync (src dest : string) (w : World) : completion unit * World :=
  match lookup false w src with
  | None => (Throw (ENOENT "cp" src), w)
  | Some from =>
      match get from (root w) with
      | None => (Throw (ENOENT "cp" src), w)
      | Some s =>
          let before := match lookup false w dest with
                        | Some to => get to (root w)
                        | None => None
                        end in
          if bool_decide (lookup false w dest = Some from) && bool_decide (before ≠ None)
          then (Throw (EINVAL "cp" src), w)
          else if isDirectory (stats_of s)
                  && (within (normalize (if absolute src then [] else cwd w) (split src))
                             (normalize (if absolute dest then [] else cwd w) (split dest))
                      || match lookup false w dest with
                         | Some to => within from to
                         | None => false
                         end)
          then (Throw (EINVAL "cp" src), w)
          else
            let '(made, w1) :=
              if existsSync (dirname dest) w then (Return tt, w)
              else mkdirSync (dirname dest) w in
            match made with
            | Throw e => (Throw e, w1)
            | Return _ =>
                match lookup false w1 dest with
                | None => (Throw (ENOENT "cp" dest), w1)
                | Some to =>
                    match graft dest s (get to (root w1)) with
                    | (failure, after) =>
                        let tree :=
                          match after with
                          | Some n => put to n (root w1)
                          | None => root w1
                          end in
                        (match failure with Some e => Throw e | None => Return tt end,
                         with_root w1 tree)
                    end
                end
            end
      end
  end.

(** *** Bun's shell on this machine *)

(** An awaited [$`...`.quiet()]: it resolves with the exit status, or
    throws when the status is not zero and [nothrow] is off. *)
Definition finish (w : World) (code : Z) (err : string) : completion ShellOutput :=
  if (code =? 0)%Z || nothrow w
  then Return {| exitCode := code; stderr := err |}
  else Throw (JsError ("Failed with exit code " +:+ pretty code)).

(** [rsync -a --delete src/ dest/].  The source is followed and must
    be a directory; the destination directory is created when it is
    missing; afterwards it holds what the source held, and nothing
    else.  Source and destination below one another are not what the
    tool is for: the destination then receives the source as it was
    when the run started. *)
Definition mirror (src dest : string) (w : World) : completion ShellOutput * World :=
  match lookup true w src with
  | None => (finish w 23 ("rsync: change_dir " +:+ src +:+ " failed"), w)
  | Some from =>
      match get from (root w) with
      | Some (Directory entries) =>
          match lookup false w dest with
          | None => (finish w 11 ("rsync: mkdir " +:+ dest +:+ " failed"), w)
          | Some to =>
              match get to (root w), lookup true w dest with
              | None, _ =>
                  (finish w 0 "", with_root w (put to (Directory entries) (root w)))
              | Some _, Some real =>
                  match get real (root w) with
                  | Some (Directory _) =>
                      (finish w 0 "", with_root w (put real (Directory entries) (root w)))
                  | _ => (finish w 11 ("rsync: mkdir " +:+ dest +:+ " failed"), w)
                  end
              | Some _, None =>
                  (finish w 11 ("rsync: mkdir " +:+ dest +:+ " failed"), w)
              end
          end
      | _ => (finish w 23 ("rsync: change_dir " +:+ src +:+ " failed"), w)
      end
  end.

Definition shell (argv : list string) (w : World) : completion ShellOutput * World :=
  match argv with
  | ["which"; "rsync"] =>
      match tool w with
      | Absent => (finish w 1 "", w)
      | _ => (finish w 0 "", w)
      end
  | ["rsync"; "-a"; "--delete"; src; dest] =>
      match tool w with
      | Absent => (finish w 127 "bun: command not found: rsync", w)
      | Fails code message => (finish w (Z.pos code) message, w)
      | Works => mirror src dest w
      end
  | _ => (finish w 127 "bun: command not found", w)
  end.

#[global] Instance platform : Platform World :=
  Build_Platform World slash resolve dirname statSync lstatSync existsSync
                 unlinkSync rmSync mkdirSync cpSync shell.

(** The scene of the specification's examples: [/tmp/a] holds
    [f.txt] with content [x], and [/tmp/b] holds [g.txt] with
    content [y]. *)
Definition scene (t : Tool) : World :=
  {| cwd := ["home"];
     root := Directory
               [("home", Directory []);
                ("tmp", Directory [("a", Directory [("f.txt", File "x")]);
                                   ("b", Directory [("g.txt", File "y")])])];
     tool := t;
     nothrow := false |}.

(** *** Ordinary names and trees *)

Definition slashless (name : string) : bool :=
  forallb (λ c, negb (Ascii.eqb c slash)) (list_ascii_of_string name).

(** A name that is one component of a path and names an entry: not
    empty, not [.] or [..], and without a slash. *)
Definition plain (name : string) : bool :=
  negb (stays name) && negb (String.eqb name "..") && slashless name.

Fixpoint distinct (names : list string) : bool :=
  match names with
  | [] => true
  | name :: rest => negb (existsb (String.eqb name) rest) && distinct rest
  end.

(** No directory of the tree has two entries of one name. *)
Fixpoint tidy (n : node) : bool :=
  match n with
  | Directory entries =>
      distinct (map fst entries) && forallb (λ '(_, c), tidy c) entries
  | _ => true
  end.

Definition is_directory (o : option node) : bool :=
  match o with
  | Some (Directory _) => true
  | _ => false
  end.

Definition is_link (o : option node) : bool :=
  match o with
  | Some (Link _) => true
  | _ => false
  end.

(** What a directory holds, by path. *)
Definition ls (p : string) (w : World) : option (list (string * node)) :=
  match lookup true w p with
  | Some loc =>
      match get loc (root w) with
      | Some (Directory entries) => Some entries
      | _ => None
      end
  | None => None
  end.

(** *** Ordinary calls

    The source is at location [S] and the target at location [D]; both
    are given by their absolute, normalised path strings [render S] and
    [render D]. *)

(** The source holds [es], and the way to the target is made of
    directories. *)
Definition set_up (S D : list string) (es : list (string * node)) (w : World) : Prop :=
  get S (root w) = Some (Directory es)
  ∧ is_directory (get (removelast D) (root w)) = true.

(** An ordinary file system for the pair: no directory lists a name
    twice, the target itself is not a link, and the pair is set up. *)
Definition ordinary (S D : list string) (es : list (string * node)) (w : World) : Prop :=
  tidy (root w) = true
  ∧ is_link (get D (root w)) = false
  ∧ set_up S D es w.

(** The target holds what the source held, and so does the source. *)
Definition mirrored (S D : list string) (es : list (string * node)) (w : World) : Prop :=
  ls (render D) w = Some es ∧ ls (render S) w = Some es.

(** *** Locations of paths, and what lies apart from a location *)

(** The location whose path string [resolve] returns. *)
Definition locus (w : World) (p : string) : list string :=
  normalize (if absolute p then [] else cwd w) (split p).

(** Is [a] a prefix of [b] other than [b] itself? *)
Definition proper (a b : list string) : bool :=
  within a b && negb (bool_decide (a = b)).

(** [w'] is [w] but for what is at [D] and below it: the working
    directory and the installed tool are the same, and so is every
    entry at a location that neither lies within [D] nor leads to it. *)
Definition elsewhere (D : list string) (w w' : World) : Prop :=
  cwd w' = cwd w ∧ tool w' = tool w ∧ nothrow w' = nothrow w
  ∧ ∀ L, within D L = false → within L D = false →
         get L (root w') = get L (root w).

End Posix.

(** ** A scripted platform

    The second platform is a test double: every call is recorded, reads
    are answered from tables, and a writing call or a command ends the
    way the script says, given the calls made before it. *)
Module Scripted.

Record World := {
  stats : string → completion Stats;
  lstats : string → completion Stats;
  present : string → bool;
  answers : list (list string) → list string → completion unit;
  commands : list (list string) → list string → completion ShellOutput;
  calls : list (list string)
}.

Definition record (call : list string) (w : World) : World :=
  {| stats := stats w; lstats := lstats w; present := present w;
     answers := answers w; commands := commands w;
     calls := calls w ++ [call] |}.

Definition act (call : list string) (w : World) : completion unit * World :=
  (answers w (calls w) call, record call w).

Definition run (argv : list string) (w : World) : completion ShellOutput * World :=
  (commands w (calls w) argv, record ("$" :: argv) w).

#[global] Instance platform : Platform World :=
  Build_Platform World Posix.slash (λ _ p, p) Posix.dirname
    (λ p w, stats w p) (λ p w, lstats w p) (λ p w, present w p)
    (λ p, act ["unlinkSync"; p]) (λ p, act ["rmSync"; p]) (λ p, act ["mkdirSync"; p])
    (λ src dest, act ["cpSync"; src; dest]) run.

Definition aDirectory : Stats :=
  {| isDirectory := true; isFile := false; isSymbolicLink := false |}.

(** A machine whose disk is full and whose target is busy: every path
    is an existing directory, [cpSync] fails for lack of space, and
    [rmSync] fails once anything has been called before it. *)
Definition fullDisk : World :=
  {| stats := λ _, Return aDirectory;
     lstats := λ _, Return aDirectory;
     present := λ _, true;
     answers := λ history call,
       match call with
       | ["cpSync"; _; _] => Throw (JsError "ENOSPC: no space left on device, write")
       | ["rmSync"; _] =>
           match history with
           | [] => Return tt
           | _ => Throw (JsError "EBUSY: resource busy or locked, rm")
           end
       | _ => Return tt
       end;
     commands := λ _ _, Throw (JsError "bun: command not found");
     calls := [] |}.

(** A machine on which everything succeeds. *)
Definition allWell : World :=
  {| stats := λ _, Return aDirectory;
     lstats := λ _, Return aDirectory;
     present := λ _, false;
     answers := λ _ _, Return tt;
     commands := λ _ _, Return {| exitCode := 0; stderr := "" |};
     calls := [] |}.

End Scripted.

(** * Properties *)

(** ** Strings *)

Lemma prefix_length (a b : string) :
  String.prefix a b = true → (String.length a ≤ String.length b)%nat.
Proof.
  revert b. induction a as [|c a IH]; intros b Hp; simpl; [lia|].
  destruct b as [|d b]; simpl in Hp; [discriminate|].
  destruct (ascii_dec c d); [|discriminate].
  apply IH in Hp. simpl. lia.
Qed.

Lemma length_append (a b : string) :
  String.length (a +:+ b) = (String.length a + String.length b)%nat.
Proof. induction a as [|c a IH]; simpl; [reflexivity|]. now rewrite IH. Qed.

(** A string never starts with itself followed by something. *)
Lemma startsWith_longer (s extra : string) :
  extra ≠ "" → startsWith s (s +:+ extra) = false.
Proof.
  intros Hne. unfold startsWith.
  destruct (String.prefix (s +:+ extra) s) eqn:Hp; [|reflexivity].
  apply prefix_length in Hp. rewrite length_append in Hp.
  destruct extra; [congruence|]. simpl in Hp. lia.
Qed.

(** Two strings cannot each start with the other followed by something. *)
Lemma startsWith_both (a b extra : string) :
  extra ≠ "" →
  startsWith a (b +:+ extra) = true → startsWith b (a +:+ extra) = false.
Proof.
  intros Hne Hab. unfold startsWith in *.
  destruct (String.prefix (a +:+ extra) b) eqn:Hba; [|reflexivity].
  apply prefix_length in Hab, Hba. rewrite length_append in Hab, Hba.
  destruct extra; [congruence|]. simpl in Hab, Hba. lia.
Qed.

Section Properties.
Context {W : Type} `{Platform W}.

(** ** Equations of the monad *)

Lemma bind_Return {A B} (m : M W A) (k : A → M W B) st a st' :
  m st = (Return a, st') → bind m k st = k a st'.
Proof. unfold bind. now intros ->. Qed.

Lemma bind_Throw {A B} (m : M W A) (k : A → M W B) st e st' :
  m st = (Throw e, st') → bind m k st = (Throw e, st').
Proof. unfold bind. now intros ->. Qed.

Lemma tryCatch_Return {A} (body : M W A) handler st a st' :
  body st = (Return a, st') → tryCatch body handler st = (Return a, st').
Proof. unfold tryCatch. now intros ->. Qed.

Lemma tryCatch_Throw {A} (body : M W A) handler st e st' :
  body st = (Throw e, st') → tryCatch body handler st = handler e st'.
Proof. unfold tryCatch. now intros ->. Qed.

Lemma sep_not_empty : sep ≠ "".
Proof. unfold sep. discriminate. Qed.

(** ** Validation *)

Lemma validateSource_missing source st e :
  statSync source (os st) = Throw e →
  validateSource source st = (Throw (SourceNotFound source), st).
Proof.
  intros Hstat. unfold validateSource.
  apply bind_Throw. unfold tryCatch, query, throw. now rewrite Hstat.
Qed.

Lemma validateSource_stat source st s :
  statSync source (os st) = Return s →
  validateSource source st =
    if isDirectory s then (Return tt, st)
    else (Throw (SourceNotDirectory source), st).
Proof.
  intros Hstat. unfold validateSource.
  rewrite (bind_Return _ _ st s st).
  - now destruct (isDirectory s).
  - unfold tryCatch, query. now rewrite Hstat.
Qed.

Lemma checkOverlap_eq source target st :
  checkOverlap source target st =
    if strictDescendant (resolve (os st) target) (resolve (os st) source)
    then (Throw (TargetInsideSource source target), st)
    else if strictDescendant (resolve (os st) source) (resolve (os st) target)
         then (Throw (SourceInsideTarget source target), st)
         else (Return tt, st).
Proof.
  unfold checkOverlap, strictDescendant, bind, peek. simpl.
  repeat match goal with |- context [if ?b then _ else _] => destruct b end;
    reflexivity.
Qed.

(** A call that passes validation is the run of the strategies. *)
Lemma syncDirectory_valid source target st :
  passesValidation source target (os st) = true →
  syncDirectory source target st = runStrategies source target st.
Proof.
  unfold passesValidation. intros Hv.
  destruct (statSync source (os st)) as [s|e] eqn:Hstat; [|discriminate].
  apply andb_prop in Hv as [Hv Hst]. apply andb_prop in Hv as [Hdir Hts].
  apply negb_true_iff in Hst, Hts.
  unfold syncDirectory.
  rewrite (bind_Return _ _ st tt st).
  - rewrite (bind_Return _ _ st tt st); [reflexivity|].
    rewrite checkOverlap_eq, Hts, Hst. reflexivity.
  - rewrite (validateSource_stat _ _ _ Hstat), Hdir. reflexivity.
Qed.

(** C6.  A source that cannot be stat-ed makes the call throw
    [SourceNotFound]; a source that is there but is not a directory
    makes it throw [SourceNotDirectory].  Both hold whatever the
    target is, so also when the two paths overlap, and the process
    state, the world included, is the one the call started in:
    nothing was written. *)
Theorem source_checks_come_first (source target : string) (st : Process W) :
  (∀ e, statSync source (os st) = Throw e →
        syncDirectory source target st = (Throw (SourceNotFound source), st))
  ∧ (∀ s, statSync source (os st) = Return s → isDirectory s = false →
          syncDirectory source target st = (Throw (SourceNotDirectory source), st)).
Proof.
  split.
  - intros e Hstat. unfold syncDirectory.
    apply bind_Throw. eapply validateSource_missing; eassumption.
  - intros s Hstat Hdir. unfold syncDirectory.
    apply bind_Throw. rewrite (validateSource_stat _ _ _ Hstat), Hdir.
    reflexivity.
Qed.

(** C2, as amended.  When the source is an existing directory: a
    target whose resolved path is a strict descendant of the resolved
    source makes the call throw [TargetInsideSource], a source whose
    resolved path is a strict descendant of the resolved target makes
    it throw [SourceInsideTarget], and in both cases the process
    state, the world included, is untouched. *)
Theorem overlap_rejected_untouched (source target : string) (st : Process W) (s : Stats) :
  statSync source (os st) = Return s →
  isDirectory s = true →
  (strictDescendant (resolve (os st) target) (resolve (os st) source) = true →
   syncDirectory source target st = (Throw (TargetInsideSource source target), st))
  ∧ (strictDescendant (resolve (os st) source) (resolve (os st) target) = true →
     syncDirectory source target st = (Throw (SourceInsideTarget source target), st)).
Proof.
  intros Hstat Hdir.
  assert (Hvalid : validateSource source st = (Return tt, st)).
  { rewrite (validateSource_stat _ _ _ Hstat), Hdir. reflexivity. }
  split; intros Hin; unfold syncDirectory;
    rewrite (bind_Return _ _ _ _ _ Hvalid); apply bind_Throw;
    rewrite checkOverlap_eq.
  - now rewrite Hin.
  - unfold strictDescendant in *.
    rewrite (startsWith_both _ _ _ sep_not_empty Hin), Hin. reflexivity.
Qed.

(** C10.  When source and target resolve to the same path, the
    overlap check raises nothing and leaves the state alone, so from
    the overlap check on the call is the run of the strategies; and a
    call that reaches the check (its source is an existing directory)
    is the run of the strategies as a whole. *)
Theorem equal_paths_pass_overlap_check (source target : string) (st : Process W) :
  resolve (os st) target = resolve (os st) source →
  checkOverlap source target st = (Return tt, st)
  ∧ (checkOverlap source target >> runStrategies source target) st
    = runStrategies source target st
  ∧ (∀ s, statSync source (os st) = Return s → isDirectory s = true →
          syncDirectory source target st = runStrategies source target st).
Proof.
  intros Heq.
  assert (Hno : strictDescendant (resolve (os st) source) (resolve (os st) source) = false)
    by apply (startsWith_longer _ _ sep_not_empty).
  assert (Hcheck : checkOverlap source target st = (Return tt, st))
    by (rewrite checkOverlap_eq, Heq, Hno; reflexivity).
  split; [exact Hcheck|]. split.
  - now rewrite (bind_Return _ _ _ _ _ Hcheck).
  - intros s Hstat Hdir. apply syncDirectory_valid.
    unfold passesValidation. rewrite Hstat, Hdir, Heq, Hno. reflexivity.
Qed.

(** ** What the building blocks leave alone *)

Lemma preserves_ret {A X} (field : Process W → X) (a : A) : preserves field (ret a).
Proof. now intros st. Qed.

Lemma preserves_throw {A X} (field : Process W → X) e : preserves field (@throw W A e).
Proof. now intros st. Qed.

Lemma preserves_bind {A B X} (field : Process W → X) (m : M W A) (k : A → M W B) :
  preserves field m → (∀ a, preserves field (k a)) → preserves field (bind m k).
Proof.
  intros Hm Hk st. unfold bind. specialize (Hm st).
  destruct (m st) as [[a|e] st']; simpl in *; [|exact Hm].
  now rewrite Hk.
Qed.

Lemma preserves_tryCatch {A X} (field : Process W → X) (body : M W A) handler :
  preserves field body → (∀ e, preserves field (handler e)) →
  preserves field (tryCatch body handler).
Proof.
  intros Hb Hh st. unfold tryCatch. specialize (Hb st).
  destruct (body st) as [[a|e] st']; simpl in *; [exact Hb|].
  now rewrite Hh.
Qed.

Lemma preserves_if {A X} (field : Process W → X) (b : bool) (m1 m2 : M W A) :
  preserves field m1 → preserves field m2 → preserves field (if b then m1 else m2).
Proof. now destruct b. Qed.

Lemma preserves_peek {A X} (field : Process W → X) (f : W → A) : preserves field (peek f).
Proof. now intros st. Qed.

Lemma preserves_query {A X} (field : Process W → X) (f : W → completion A) :
  preserves field (query f).
Proof. now intros st. Qed.

Lemma perform_cache {A} (f : W → completion A * W) : preserves rsyncAvailable (perform f).
Proof. intros st. unfold perform. now destruct (f (os st)). Qed.

Lemma perform_log {A} (f : W → completion A * W) : preserves logged (perform f).
Proof. intros st. unfold perform. now destruct (f (os st)). Qed.

Lemma emit_cache entry : preserves (W:=W) rsyncAvailable (emit entry).
Proof. now intros st. Qed.

Create HintDb frame discriminated.
#[local] Hint Resolve preserves_ret preserves_throw preserves_bind preserves_tryCatch
  preserves_if preserves_peek preserves_query perform_cache perform_log emit_cache
  : frame.
#[local] Hint Extern 1 (preserves _ (logDebug _)) => unfold logDebug : frame.
#[local] Hint Extern 1 (preserves _ (logError _)) => unfold logError : frame.

Ltac frame_by_parts :=
  intros; repeat first
    [ apply preserves_bind; [|intros ?]
    | apply preserves_tryCatch; [|intros ?]
    | apply preserves_if
    | progress auto with frame ].

Lemma removeExisting_cache target : preserves rsyncAvailable (removeExisting target).
Proof. unfold removeExisting. frame_by_parts. Qed.

Lemma removeExisting_log target : preserves logged (removeExisting target).
Proof. unfold removeExisting. frame_by_parts. Qed.

#[local] Hint Resolve removeExisting_cache removeExisting_log : frame.

Lemma copyWithNodeFs_cache source target :
  preserves rsyncAvailable (copyWithNodeFs source target).
Proof. unfold copyWithNodeFs. frame_by_parts. Qed.

Lemma copyWithNodeFs_log source target : preserves logged (copyWithNodeFs source target).
Proof. unfold copyWithNodeFs. frame_by_parts. Qed.

Lemma copyWithRsync_cache source target :
  preserves rsyncAvailable (copyWithRsync source target).
Proof. unfold copyWithRsync. frame_by_parts. Qed.

Lemma copyWithRsync_log source target : preserves logged (copyWithRsync source target).
Proof. unfold copyWithRsync. frame_by_parts. Qed.

Lemma cleanupPartial_log target : preserves logged (cleanupPartial target).
Proof. unfold cleanupPartial. frame_by_parts. Qed.

#[local] Hint Resolve copyWithNodeFs_cache copyWithRsync_cache : frame.

Lemma tryRsync_cache source target : preserves rsyncAvailable (tryRsync source target).
Proof. unfold tryRsync. frame_by_parts. Qed.

Lemma fsFallback_cache source target : preserves rsyncAvailable (fsFallback source target).
Proof. unfold fsFallback, cleanupPartial. frame_by_parts. Qed.

Lemma validateSource_cache source : preserves rsyncAvailable (validateSource source).
Proof. unfold validateSource. frame_by_parts. Qed.

Lemma checkOverlap_cache source target :
  preserves rsyncAvailable (checkOverlap source target).
Proof. unfold checkOverlap. frame_by_parts. Qed.

(** ** Tool availability *)

Lemma detectRsync_cached st b :
  rsyncAvailable st = Some b → detectRsync st = (Return (Some b), st).
Proof. intros Hc. unfold detectRsync, bind, readCache, ret. now rewrite Hc. Qed.

Lemma detectRsync_probe st outcome w' :
  rsyncAvailable st = None →
  shell ["which"; "rsync"] (os st) = (outcome, w') →
  detectRsync st =
    (Return (Some (probeVerdict outcome)),
     {| rsyncAvailable := Some (probeVerdict outcome); os := w'; logged := logged st |}).
Proof.
  intros Hc Hsh.
  unfold detectRsync, bind, readCache, tryCatch, perform, writeCache.
  rewrite Hc, Hsh. now destruct outcome.
Qed.

(** Whatever the state, detection returns a boolean and that boolean
    is what the cache holds afterwards. *)
Lemma detectRsync_boolean st :
  ∃ b, fst (detectRsync st) = Return (Some b)
       ∧ rsyncAvailable (snd (detectRsync st)) = Some b.
Proof.
  destruct (rsyncAvailable st) as [b|] eqn:Hc.
  - exists b. now rewrite (detectRsync_cached _ _ Hc).
  - destruct (shell ["which"; "rsync"] (os st)) as [outcome w'] eqn:Hsh.
    exists (probeVerdict outcome). now rewrite (detectRsync_probe _ _ _ Hc Hsh).
Qed.

(** C8.  Detection never throws: it returns a boolean, which it also
    leaves in the cache; and when it has to probe, that boolean is
    [true] exactly when the probe returned with exit status 0, and
    [false] otherwise, also when the probe threw. *)
Theorem detectRsync_never_throws (st : Process W) :
  (∃ b, fst (detectRsync st) = Return (Some b)
        ∧ rsyncAvailable (snd (detectRsync st)) = Some b)
  ∧ (rsyncAvailable st = None →
     ∀ outcome w', shell ["which"; "rsync"] (os st) = (outcome, w') →
       detectRsync st =
         (Return (Some (probeVerdict outcome)),
          {| rsyncAvailable := Some (probeVerdict outcome); os := w';
             logged := logged st |})
       ∧ (probeVerdict outcome = true ↔
          ∃ result, outcome = Return result ∧ exitCode result = 0%Z)).
Proof.
  split; [apply detectRsync_boolean|].
  intros Hc outcome w' Hsh. split; [now apply detectRsync_probe|].
  destruct outcome as [result|e]; simpl.
  - rewrite Z.eqb_eq. split; [eauto|]. now intros (r & [= <-] & ?).
  - split; [discriminate|]. now intros (r & ? & _).
Qed.

Lemma runStrategies_cached source target st b :
  rsyncAvailable st = Some b →
  rsyncAvailable (snd (runStrategies source target st)) = Some b.
Proof.
  intros Hc. unfold runStrategies, firstChoice, bind.
  rewrite (detectRsync_cached _ _ Hc).
  pose proof (tryRsync_cache source target st) as Ht.
  pose proof (fsFallback_cache source target) as Hf.
  destruct (truthy (Some b)).
  - destruct (tryRsync source target st) as [[[r|]|e] st1]; simpl in *;
      try (now rewrite Ht). now rewrite Hf, Ht.
  - simpl. now rewrite Hf.
Qed.

Lemma syncDirectory_cached source target st b :
  rsyncAvailable st = Some b →
  rsyncAvailable (snd (syncDirectory source target st)) = Some b.
Proof.
  intros Hc. unfold syncDirectory, bind.
  pose proof (validateSource_cache source st) as Hv.
  destruct (validateSource source st) as [[[]|e] st1]; simpl in *; [|congruence].
  pose proof (checkOverlap_cache source target st1) as Ho.
  destruct (checkOverlap source target st1) as [[[]|e] st2]; simpl in *; [|congruence].
  apply runStrategies_cached. congruence.
Qed.

Lemma after_cached c st b :
  rsyncAvailable st = Some b → assignsCache c = false →
  rsyncAvailable (after c st) = Some b.
Proof.
  intros Hc Hk. destruct c; try discriminate; simpl.
  - now rewrite (detectRsync_cached _ _ Hc).
  - now apply syncDirectory_cached.
Qed.

Lemma afterAll_cached cs st b :
  rsyncAvailable st = Some b → forallb (λ c, negb (assignsCache c)) cs = true →
  rsyncAvailable (afterAll cs st) = Some b.
Proof.
  revert st. induction cs as [|c cs IH]; intros st Hc Hcs; simpl in *; [exact Hc|].
  apply andb_prop in Hcs as [Hk Hcs]. apply negb_true_iff in Hk.
  apply IH; [|exact Hcs]. now apply after_cached.
Qed.

(** C7.  Once the cache holds a boolean [b]: detection returns [b]
    and hands back the very state it was given (no probe has run),
    and this stays so after any sequence of detections and
    synchronisations; and a single exported operation leaves the
    cache unknown exactly when it is the reset or the override with
    [null]. *)
Theorem cache_invariant (st : Process W) (b : bool) :
  rsyncAvailable st = Some b →
  detectRsync st = (Return (Some b), st)
  ∧ (∀ cs, forallb (λ c, negb (assignsCache c)) cs = true →
           detectRsync (afterAll cs st) = (Return (Some b), afterAll cs st))
  ∧ (∀ c, rsyncAvailable (after c st) = None ↔ c = CallReset ∨ c = CallOverride None).
Proof.
  intros Hc. split; [now apply detectRsync_cached|]. split.
  - intros cs Hcs. apply detectRsync_cached. now apply afterAll_cached.
  - intros c. split.
    + intros Hnone. destruct c as [| source target | | [v|]]; auto; exfalso.
      * simpl in Hnone. rewrite (detectRsync_cached _ _ Hc) in Hnone. simpl in Hnone.
        congruence.
      * simpl in Hnone. rewrite (syncDirectory_cached _ _ _ _ Hc) in Hnone.
        discriminate.
      * discriminate.
    + now intros [-> | ->].
Qed.

(** ** Strategies *)

Lemma fsFallback_Return source target st r st' :
  fsFallback source target st = (Return r, st') → r = {| method := fs |}.
Proof.
  unfold fsFallback, tryCatch, bind, logDebug, emit, ret, throw.
  destruct (copyWithNodeFs source target st) as [[[]|e] st1].
  - now intros [= <- _].
  - destruct (cleanupPartial target st1) as [[[]|e'] st2]; discriminate.
Qed.

Lemma runStrategies_unavailable source target st h st1 :
  detectRsync st = (Return h, st1) → truthy h = false →
  runStrategies source target st = fsFallback source target st1.
Proof.
  intros Hd Hh. unfold runStrategies, firstChoice.
  rewrite (bind_Return _ _ st None st1); [reflexivity|].
  rewrite (bind_Return _ _ _ _ _ Hd), Hh. reflexivity.
Qed.

Lemma tryRsync_Return source target st st' :
  copyWithRsync source target st = (Return tt, st') →
  tryRsync source target st =
    (Return (Some {| method := rsync |}),
     snd (logDebug ("Copied " +:+ source +:+ " → " +:+ target +:+ " using rsync") st')).
Proof.
  intros Hc. unfold tryRsync. apply tryCatch_Return.
  rewrite (bind_Return _ _ _ _ _ Hc). reflexivity.
Qed.

Lemma tryRsync_Throw source target st e st' :
  copyWithRsync source target st = (Throw e, st') →
  tryRsync source target st =
    (Return None,
     snd (logError ("rsync failed, falling back to fs: " +:+ errorMessage e) st')).
Proof.
  intros Hc. unfold tryRsync.
  rewrite (tryCatch_Throw _ _ st e st'); [reflexivity|].
  now rewrite (bind_Throw _ _ _ _ _ Hc).
Qed.

(** C5.  For a call that passes validation, let detection answer
    [h].  If [h] is not [true] (and it is not whenever the cache was
    forced to [false]), the call is the fallback run from the state
    detection left, and when that returns it reports [fs].  If [h] is
    [true] and the copy with the tool returns, the call returns
    [rsync] in the state that copy left, plus the one debug line:
    nothing of the fallback has run. *)
Theorem outcome_names_strategy
    (source target : string) (st st1 : Process W) (h : option bool) :
  passesValidation source target (os st) = true →
  detectRsync st = (Return h, st1) →
  (rsyncAvailable st = Some false → truthy h = false)
  ∧ (truthy h = false →
     syncDirectory source target st = fsFallback source target st1
     ∧ ∀ r st', syncDirectory source target st = (Return r, st') → method r = fs)
  ∧ (truthy h = true →
     ∀ st2, copyWithRsync source target st1 = (Return tt, st2) →
       syncDirectory source target st =
         (Return {| method := rsync |},
          snd (logDebug ("Copied " +:+ source +:+ " → " +:+ target +:+ " using rsync")
                        st2))).
Proof.
  intros Hv Hd. rewrite (syncDirectory_valid _ _ _ Hv). split; [|split].
  - intros Hc. rewrite (detectRsync_cached _ _ Hc) in Hd. now injection Hd as <- _.
  - intros Hh. rewrite (runStrategies_unavailable _ _ _ _ _ Hd Hh).
    split; [reflexivity|]. intros r st' Hf.
    now rewrite (fsFallback_Return _ _ _ _ _ Hf).
  - intros Hh st2 Hc. unfold runStrategies, firstChoice.
    rewrite (bind_Return _ _ st (Some {| method := rsync |})
               (snd (logDebug ("Copied " +:+ source +:+ " → " +:+ target
                               +:+ " using rsync") st2))); [reflexivity|].
    rewrite (bind_Return _ _ _ _ _ Hd), Hh. now apply tryRsync_Return.
Qed.

(** How the copy with the tool fails: the [mkdirSync] throws, the
    command throws, or the command returns a status other than 0, in
    which case the error carries its standard error text. *)
Lemma copyWithRsync_nonzero source target st st1 result w2 :
  perform (mkdirSync (dirname target)) st = (Return tt, st1) →
  shell ["rsync"; "-a"; "--delete"; source +:+ "/"; target +:+ "/"] (os st1)
    = (Return result, w2) →
  exitCode result ≠ 0%Z →
  fst (copyWithRsync source target st) = Throw (JsError ("rsync failed: " +:+ stderr result)).
Proof.
  intros Hm Hs Hne. unfold copyWithRsync.
  rewrite (bind_Return _ _ _ _ _ Hm). unfold bind, perform at 1. rewrite Hs.
  apply Z.eqb_neq in Hne. now rewrite Hne.
Qed.

(** C3.  For a call that passes validation, with the tool detected
    and its copy throwing [e]: the call is the fallback, run from the
    state the failed copy left with one more line in the error sink,
    the one that reports [e]; so what the caller gets is what the
    fallback gives, and when the fallback's copy returns, the call
    returns [fs] and the error line is among the logged ones. *)
Theorem rsync_failure_falls_back
    (source target : string) (st st1 st2 : Process W) (e : exn) :
  passesValidation source target (os st) = true →
  detectRsync st = (Return (Some true), st1) →
  copyWithRsync source target st1 = (Throw e, st2) →
  let line := Error ("rsync failed, falling back to fs: " +:+ errorMessage e) in
  let st3 := {| rsyncAvailable := rsyncAvailable st2; os := os st2;
                logged := logged st2 ++ [line] |} in
  syncDirectory source target st = fsFallback source target st3
  ∧ ∀ st4, copyWithNodeFs source target st3 = (Return tt, st4) →
      ∃ st5, syncDirectory source target st = (Return {| method := fs |}, st5)
             ∧ os st5 = os st4
             ∧ line ∈ logged st5.
Proof.
  intros Hv Hd Hc line st3.
  assert (Hrun : syncDirectory source target st = fsFallback source target st3).
  { rewrite (syncDirectory_valid _ _ _ Hv). unfold runStrategies, firstChoice.
    rewrite (bind_Return _ _ st None st3); [reflexivity|].
    rewrite (bind_Return _ _ _ _ _ Hd). simpl.
    now rewrite (tryRsync_Throw _ _ _ _ _ Hc). }
  split; [exact Hrun|]. intros st4 Hcopy.
  rewrite Hrun. unfold fsFallback.
  eexists. split.
  - apply tryCatch_Return. rewrite (bind_Return _ _ _ _ _ Hcopy). reflexivity.
  - simpl. split; [reflexivity|].
    pose proof (copyWithNodeFs_log source target st3) as Hlog.
    rewrite Hcopy in Hlog. simpl in Hlog. rewrite Hlog.
    apply elem_of_app. left. apply elem_of_app. right. apply list_elem_of_singleton.
    reflexivity.
Qed.

(** The first choice never throws: it yields the tool's result or
    nothing. *)
Lemma firstChoice_total source target st :
  ∃ attempt st1, firstChoice source target st = (Return attempt, st1).
Proof.
  unfold firstChoice, bind.
  destruct (detectRsync_boolean st) as (b & Hfst & _).
  destruct (detectRsync st) as [r st0]. simpl in Hfst. subst r.
  destruct b; simpl; [|eauto].
  destruct (copyWithRsync source target st0) as [[[]|e] st1] eqn:Hc.
  - rewrite (tryRsync_Return _ _ _ _ Hc). eauto.
  - rewrite (tryRsync_Throw _ _ _ _ _ Hc). eauto.
Qed.

Lemma cleanupPartial_eq target st :
  cleanupPartial target st = (Return tt, snd (removeExisting target st)).
Proof.
  unfold cleanupPartial, tryCatch.
  now destruct (removeExisting target st) as [[[]|e] st'].
Qed.

Lemma removeExisting_state target st :
  snd (removeExisting target st) =
    if existsSync target (os st) then
      match lstatSync target (os st) with
      | Return stat =>
          if isSymbolicLink stat || isFile stat
          then snd (perform (unlinkSync target) st)
          else snd (perform (rmSync target) st)
      | Throw _ => st
      end
    else st.
Proof.
  unfold removeExisting, bind, peek, query.
  destruct (existsSync target (os st)); [|reflexivity].
  destruct (lstatSync target (os st)) as [stat|e]; [|reflexivity].
  now destruct (isSymbolicLink stat || isFile stat).
Qed.

(** C4.  For a call that passes validation and reaches the fallback
    (the first choice gave nothing), with the fallback's copy
    throwing [e]: the call throws that same [e]; the state it leaves
    is the one the cleanup leaves, whether the cleanup itself
    succeeded or threw; and the cleanup is one removal of the target
    when it exists ([unlinkSync] for a file or a link, [rmSync]
    otherwise) and nothing else. *)
Theorem fallback_failure_rethrown
    (source target : string) (st st1 st2 : Process W) (e : exn) :
  passesValidation source target (os st) = true →
  firstChoice source target st = (Return None, st1) →
  copyWithNodeFs source target st1 = (Throw e, st2) →
  syncDirectory source target st = (Throw e, snd (removeExisting target st2))
  ∧ cleanupPartial target st2 = (Return tt, snd (removeExisting target st2))
  ∧ snd (removeExisting target st2) =
      if existsSync target (os st2) then
        match lstatSync target (os st2) with
        | Return stat =>
            if isSymbolicLink stat || isFile stat
            then snd (perform (unlinkSync target) st2)
            else snd (perform (rmSync target) st2)
        | Throw _ => st2
        end
      else st2.
Proof.
  intros Hv Hfirst Hcopy. split; [|split].
  - rewrite (syncDirectory_valid _ _ _ Hv). unfold runStrategies.
    rewrite (bind_Return _ _ _ _ _ Hfirst). unfold fsFallback.
    rewrite (tryCatch_Throw _ _ st1 e st2).
    + unfold bind. now rewrite cleanupPartial_eq.
    + now rewrite (bind_Throw _ _ _ _ _ Hcopy).
  - apply cleanupPartial_eq.
  - apply removeExisting_state.
Qed.

End Properties.

(** ** Every outcome of a call *)

Section Outcomes.
Context {W : Type} `{Platform W}.

Lemma validateSource_cases source st :
  validateSource source st = (Return tt, st)
  ∨ validateSource source st = (Throw (SourceNotFound source), st)
  ∨ validateSource source st = (Throw (SourceNotDirectory source), st).
Proof.
  destruct (statSync source (os st)) as [s|e] eqn:Hstat.
  - rewrite (validateSource_stat _ _ _ Hstat). destruct (isDirectory s); auto.
  - rewrite (validateSource_missing _ _ _ Hstat). auto.
Qed.

Lemma checkOverlap_cases source target st :
  checkOverlap source target st = (Return tt, st)
  ∨ checkOverlap source target st = (Throw (TargetInsideSource source target), st)
  ∨ checkOverlap source target st = (Throw (SourceInsideTarget source target), st).
Proof.
  rewrite checkOverlap_eq.
  destruct (strictDescendant (resolve (os st) target) (resolve (os st) source)); auto.
  destruct (strictDescendant (resolve (os st) source) (resolve (os st) target)); auto.
Qed.

(** A call is a validation error in the state it started in, or the
    run of the strategies. *)
Lemma syncDirectory_cases source target st :
  (∃ e, syncDirectory source target st = (Throw e, st)
        ∧ (e = SourceNotFound source ∨ e = SourceNotDirectory source
           ∨ e = TargetInsideSource source target
           ∨ e = SourceInsideTarget source target))
  ∨ syncDirectory source target st = runStrategies source target st.
Proof.
  unfold syncDirectory.
  destruct (validateSource_cases source st) as [Hv|[Hv|Hv]].
  - rewrite (bind_Return _ _ _ _ _ Hv).
    destruct (checkOverlap_cases source target st) as [Ho|[Ho|Ho]].
    + right. now rewrite (bind_Return _ _ _ _ _ Ho).
    + left. rewrite (bind_Throw _ _ _ _ _ Ho). eauto 6.
    + left. rewrite (bind_Throw _ _ _ _ _ Ho). eauto 6.
  - left. rewrite (bind_Throw _ _ _ _ _ Hv). eauto 6.
  - left. rewrite (bind_Throw _ _ _ _ _ Hv). eauto 6.
Qed.

Lemma detectRsync_log st : logged (snd (detectRsync st)) = logged st.
Proof.
  destruct (rsyncAvailable st) as [b|] eqn:Hc.
  - now rewrite (detectRsync_cached _ _ Hc).
  - destruct (shell ["which"; "rsync"] (os st)) as [outcome w'] eqn:Hsh.
    now rewrite (detectRsync_probe _ _ _ Hc Hsh).
Qed.

(** How the first choice ends: with the tool's result and its debug
    line; with nothing, the tool being unavailable; or with nothing and
    the error line of the tool's failure. *)
Lemma firstChoice_cases source target st :
  ∃ attempt st1,
    firstChoice source target st = (Return attempt, st1)
    ∧ ((attempt = Some {| method := rsync |}
        ∧ rsyncAvailable st1 = Some true
        ∧ logged st1
          = logged st ++ [Debug ("Copied " +:+ source +:+ " → " +:+ target +:+ " using rsync")])
       ∨ (attempt = None ∧ rsyncAvailable st1 = Some false ∧ logged st1 = logged st)
       ∨ (attempt = None ∧ rsyncAvailable st1 = Some true
          ∧ ∃ e, logged st1
                 = logged st
                   ++ [Error ("rsync failed, falling back to fs: " +:+ errorMessage e)])).
Proof.
  unfold firstChoice, bind.
  destruct (detectRsync_boolean st) as (b & Hfst & Hcache).
  pose proof (detectRsync_log st) as Hlog.
  destruct (detectRsync st) as [r st0]. simpl in Hfst, Hcache, Hlog. subst r.
  destruct b; cbn [truthy].
  - pose proof (copyWithRsync_cache source target st0) as Hc1.
    pose proof (copyWithRsync_log source target st0) as Hl1.
    destruct (copyWithRsync source target st0) as [[[]|e] st1] eqn:Hc; simpl in Hc1, Hl1.
    + rewrite (tryRsync_Return _ _ _ _ Hc). do 2 eexists. split; [reflexivity|].
      left. cbn. repeat split; congruence.
    + rewrite (tryRsync_Throw _ _ _ _ _ Hc). do 2 eexists. split; [reflexivity|].
      right; right. cbn. repeat split; [congruence|]. exists e. congruence.
  - do 2 eexists. split; [reflexivity|]. right; left. auto.
Qed.

(** How the fallback ends: with [fs] and its debug line, or with the
    error of its copy and no line at all. *)
Lemma fsFallback_cases source target st :
  (∃ st', fsFallback source target st = (Return {| method := fs |}, st')
          ∧ rsyncAvailable st' = rsyncAvailable st
          ∧ logged st'
            = logged st
              ++ [Debug ("Copied " +:+ source +:+ " → " +:+ target +:+ " using fs.cpSync")])
  ∨ (∃ e st2 st', copyWithNodeFs source target st = (Throw e, st2)
                  ∧ fsFallback source target st = (Throw e, st')
                  ∧ rsyncAvailable st' = rsyncAvailable st
                  ∧ logged st' = logged st
                  ∧ st' = snd (removeExisting target st2)).
Proof.
  pose proof (copyWithNodeFs_cache source target st) as Hc1.
  pose proof (copyWithNodeFs_log source target st) as Hl1.
  destruct (copyWithNodeFs source target st) as [[[]|e] st2] eqn:Hcopy; simpl in Hc1, Hl1.
  - left. eexists. split.
    + unfold fsFallback. apply tryCatch_Return.
      rewrite (bind_Return _ _ _ _ _ Hcopy). reflexivity.
    + cbn. split; congruence.
  - right. exists e, st2, (snd (removeExisting target st2)). split; [reflexivity|]. split.
    + unfold fsFallback. rewrite (tryCatch_Throw _ _ st e st2).
      * unfold bind. now rewrite cleanupPartial_eq.
      * now rewrite (bind_Throw _ _ _ _ _ Hcopy).
    + rewrite (removeExisting_cache target st2), (removeExisting_log target st2).
      repeat split; congruence.
Qed.

(** X1.  A call that returns has decided the cache and has written
    its last line to the debug sink, and that line names the strategy
    the result names.  With [rsync] the cache holds [true] and the line
    is the only one.  With [fs] either the cache holds [false] and the
    line is the only one, or the cache holds [true] and the line follows
    the one error line of the tool's failure. *)
Theorem returned_call_log (source target : string) (st st' : Process W)
    (r : SyncDirectoryResult) :
  syncDirectory source target st = (Return r, st') →
  match method r with
  | rsync =>
      rsyncAvailable st' = Some true
      ∧ logged st'
        = logged st ++ [Debug ("Copied " +:+ source +:+ " → " +:+ target +:+ " using rsync")]
  | fs =>
      (rsyncAvailable st' = Some false
       ∧ logged st'
         = logged st
           ++ [Debug ("Copied " +:+ source +:+ " → " +:+ target +:+ " using fs.cpSync")])
      ∨ (rsyncAvailable st' = Some true
         ∧ ∃ e, logged st'
                = logged st
                  ++ [Error ("rsync failed, falling back to fs: " +:+ errorMessage e);
                      Debug ("Copied " +:+ source +:+ " → " +:+ target
                             +:+ " using fs.cpSync")])
  end.
Proof.
  intros Hrun.
  destruct (syncDirectory_cases source target st) as [(e & He & _)|Hvalid]; [congruence|].
  rewrite Hvalid in Hrun. unfold runStrategies in Hrun.
  destruct (firstChoice_cases source target st) as (attempt & st1 & Hfirst & Hcases).
  rewrite (bind_Return _ _ _ _ _ Hfirst) in Hrun.
  destruct Hcases as [(-> & Hc & Hl)|[(-> & Hc & Hl)|(-> & Hc & e & Hl)]].
  - injection Hrun as <- <-. now split.
  - destruct (fsFallback_cases source target st1)
      as [(st2 & Hf & Hc2 & Hl2)|(e & st2 & st3 & _ & Hf & _)]; [|congruence].
    rewrite Hf in Hrun. injection Hrun as <- <-. left. split; congruence.
  - destruct (fsFallback_cases source target st1)
      as [(st2 & Hf & Hc2 & Hl2)|(e' & st2 & st3 & _ & Hf & _)]; [|congruence].
    rewrite Hf in Hrun. injection Hrun as <- <-. right. split; [congruence|].
    exists e. rewrite Hl2, Hl, <- app_assoc. reflexivity.
Qed.

(** X2.  A call that throws has written nothing to the debug sink.
    Either the error is one of the four validation errors and the
    process state is the one the call started in; or it is the error
    that the fallback's copy threw, the state is the one the removal
    of the target left after that, the cache is decided, and the log
    has grown by at most the error line of the tool's failure. *)
Theorem thrown_call_classified (source target : string) (st st' : Process W) (e : exn) :
  syncDirectory source target st = (Throw e, st') →
  (st' = st
   ∧ (e = SourceNotFound source ∨ e = SourceNotDirectory source
      ∨ e = TargetInsideSource source target ∨ e = SourceInsideTarget source target))
  ∨ (∃ st1 st2, copyWithNodeFs source target st1 = (Throw e, st2)
                ∧ st' = snd (removeExisting target st2)
                ∧ ((rsyncAvailable st' = Some false ∧ logged st' = logged st)
                   ∨ (rsyncAvailable st' = Some true
                      ∧ ∃ e', logged st'
                              = logged st
                                ++ [Error ("rsync failed, falling back to fs: "
                                           +:+ errorMessage e')]))).
Proof.
  intros Hrun.
  destruct (syncDirectory_cases source target st) as [(e0 & He & Hwhich)|Hvalid].
  - left. rewrite He in Hrun. injection Hrun as <- <-. now split.
  - right. rewrite Hvalid in Hrun. unfold runStrategies in Hrun.
    destruct (firstChoice_cases source target st) as (attempt & st1 & Hfirst & Hcases).
    rewrite (bind_Return _ _ _ _ _ Hfirst) in Hrun.
    destruct Hcases as [(-> & Hc & Hl)|[(-> & Hc & Hl)|(-> & Hc & e' & Hl)]];
      [discriminate Hrun| |];
      (destruct (fsFallback_cases source target st1)
         as [(st2 & Hf & _)|(e1 & st2 & st3 & Hcopy & Hf & Hc2 & Hl2 & Hst)];
         [congruence|]);
      rewrite Hf in Hrun; injection Hrun as <- <-; exists st1, st2;
      (split; [exact Hcopy|]); (split; [exact Hst|]).
    + left. split; congruence.
    + right. split; [congruence|]. exists e'. congruence.
Qed.

(** X3.  A call that passes validation leaves the cache decided: it
    still holds the boolean it held, and when it was unknown it holds
    the verdict of the probe made in the world the call started in.  A
    call that does not pass validation throws and leaves the process
    state, the unknown cache included, as it was. *)
Theorem call_decides_cache (source target : string) (st : Process W) :
  (passesValidation source target (os st) = true →
   rsyncAvailable (snd (syncDirectory source target st))
   = Some match rsyncAvailable st with
          | Some b => b
          | None => probeVerdict (fst (shell ["which"; "rsync"] (os st)))
          end)
  ∧ (passesValidation source target (os st) = false →
     ∃ e, syncDirectory source target st = (Throw e, st)).
Proof.
  split.
  - intros Hv. rewrite (syncDirectory_valid _ _ _ Hv).
    destruct (rsyncAvailable st) as [b|] eqn:Hc.
    + now apply runStrategies_cached.
    + destruct (shell ["which"; "rsync"] (os st)) as [outcome w'] eqn:Hsh.
      pose proof (detectRsync_probe _ _ _ Hc Hsh) as Hd. cbn [fst].
      set (st0 := {| rsyncAvailable := Some (probeVerdict outcome); os := w';
                     logged := logged st |}) in Hd.
      unfold runStrategies, firstChoice, bind. rewrite Hd.
      pose proof (tryRsync_cache source target st0) as Ht.
      pose proof (fsFallback_cache source target) as Hf.
      destruct (truthy (Some (probeVerdict outcome))).
      * destruct (tryRsync source target st0) as [[[r|]|e] st1]; simpl in *;
          try exact Ht. now rewrite Hf, Ht.
      * simpl. now rewrite Hf.
  - intros Hv. unfold passesValidation in Hv. unfold syncDirectory.
    destruct (statSync source (os st)) as [s|e] eqn:Hstat.
    + pose proof (validateSource_stat _ _ _ Hstat) as Hval.
      destruct (isDirectory s); cbn [andb] in Hv.
      * rewrite (bind_Return _ _ _ _ _ Hval).
        pose proof (checkOverlap_eq source target st) as Ho.
        destruct (strictDescendant (resolve (os st) target) (resolve (os st) source)).
        -- rewrite (bind_Throw _ _ _ _ _ Ho). eauto.
        -- destruct (strictDescendant (resolve (os st) source) (resolve (os st) target));
             [|discriminate Hv].
           rewrite (bind_Throw _ _ _ _ _ Ho). eauto.
      * rewrite (bind_Throw _ _ _ _ _ Hval). eauto.
    + rewrite (bind_Throw _ _ _ _ _ (validateSource_missing _ _ _ Hstat)). eauto.
Qed.

(** X4.  Detection probes once: from any state, a second detection
    returns what the first returned and hands back the state the first
    left, so no second command has run. *)
Theorem detection_probes_once (st : Process W) :
  detectRsync (snd (detectRsync st)) = (fst (detectRsync st), snd (detectRsync st)).
Proof.
  destruct (detectRsync_boolean st) as (b & Hfst & Hcache).
  rewrite Hfst. now apply detectRsync_cached.
Qed.

(** X5.  After a reset the next detection probes again, whatever the
    cache held: it runs the command in the current world, returns its
    verdict and caches it; the log is not written. *)
Theorem reset_forces_new_probe (st : Process W) :
  (resetRsyncCache >> detectRsync) st
  = (Return (Some (probeVerdict (fst (shell ["which"; "rsync"] (os st))))),
     {| rsyncAvailable := Some (probeVerdict (fst (shell ["which"; "rsync"] (os st))));
        os := snd (shell ["which"; "rsync"] (os st));
        logged := logged st |}).
Proof.
  unfold resetRsyncCache, bind, writeCache.
  destruct (shell ["which"; "rsync"] (os st)) as [outcome w'] eqn:Hsh. cbn [fst snd].
  exact (detectRsync_probe {| rsyncAvailable := None; os := os st; logged := logged st |}
           outcome w' eq_refl Hsh).
Qed.

(** X6.  An override with a boolean is what the next detection
    returns, with no command run: the world and the log are the ones
    before the override.  An override with [null] is a reset. *)
Theorem override_then_detection (value : option bool) (st : Process W) :
  (setRsyncAvailable value >> detectRsync) st
  = match value with
    | Some b =>
        (Return (Some b), {| rsyncAvailable := Some b; os := os st; logged := logged st |})
    | None => (resetRsyncCache >> detectRsync) st
    end.
Proof.
  destruct value as [b|]; [|reflexivity].
  unfold setRsyncAvailable, bind, writeCache. now apply detectRsync_cached.
Qed.

End Outcomes.

(** ** Commands *)

Section Commands.
Context {W : Type} (P : Platform W).

(** X7.  With the cache holding [false] a call runs no command: on
    the platform with any other shell it ends the same way and leaves
    the same state. *)
Theorem forced_fallback_runs_no_command
    (sh : list string → W → completion ShellOutput * W)
    (source target : string) (st : Process W) :
  rsyncAvailable st = Some false →
  @syncDirectory W (withShell P sh) source target st
  = @syncDirectory W P source target st.
Proof.
  intros Hc.
  assert (Hrun : ∀ st0, rsyncAvailable st0 = Some false →
            @runStrategies W (withShell P sh) source target st0
            = @runStrategies W P source target st0).
  { intros st0 Hc0.
    rewrite (@runStrategies_unavailable W (withShell P sh) _ _ _ _ _
               (@detectRsync_cached W (withShell P sh) _ _ Hc0) eq_refl).
    rewrite (@runStrategies_unavailable W P _ _ _ _ _
               (@detectRsync_cached W P _ _ Hc0) eq_refl).
    reflexivity. }
  unfold syncDirectory, bind.
  change (@validateSource W (withShell P sh)) with (@validateSource W P).
  change (@checkOverlap W (withShell P sh)) with (@checkOverlap W P).
  pose proof (@validateSource_cache W P source st) as Hv.
  destruct (@validateSource W P source st) as [[[]|e] st1]; [|reflexivity].
  pose proof (@checkOverlap_cache W P source target st1) as Ho.
  destruct (@checkOverlap W P source target st1) as [[[]|e] st2]; [|reflexivity].
  simpl in Hv, Ho. apply Hrun. congruence.
Qed.

End Commands.

(** * The POSIX file system *)

(** ** Path strings *)

Module PathStrings.
Import Posix.

(** Appending and splitting. *)
Lemma append_cons c (s t : string) : String c s +:+ t = String c (s +:+ t).
Proof. reflexivity. Qed.

Lemma append_nil_l (s : string) : "" +:+ s = s.
Proof. reflexivity. Qed.

Lemma append_nil_r (s : string) : s +:+ "" = s.
Proof. induction s as [|c s IH]; [reflexivity|]. now rewrite append_cons, IH. Qed.

Lemma split_not_nil s : split s ≠ [].
Proof.
  destruct s as [|c s]; simpl; [discriminate|].
  destruct (Ascii.eqb c slash); [discriminate|].
  destruct (split s); discriminate.
Qed.

Lemma split_app name s :
  slashless name = true →
  split (name +:+ s) = match split s with
                       | h :: t => (name +:+ h) :: t
                       | [] => [name]
                       end.
Proof.
  induction name as [|c name IH]; intros Hs.
  - rewrite append_nil_l.
    destruct (split s) eqn:E; [now apply split_not_nil in E|reflexivity].
  - cbn in Hs. apply andb_prop in Hs as [Hc Hs]. apply negb_true_iff in Hc.
    rewrite append_cons. cbn [split]. rewrite Hc, (IH Hs).
    destruct (split s) eqn:E; [now apply split_not_nil in E|reflexivity].
Qed.

Lemma plain_slashless name : plain name = true → slashless name = true.
Proof. unfold plain. intros H. now apply andb_prop in H as [_ H]. Qed.

Lemma plain_moves name :
  plain name = true → stays name = false ∧ String.eqb name ".." = false.
Proof.
  unfold plain. intros H. apply andb_prop in H as [H _].
  apply andb_prop in H as [H1 H2]. now apply negb_true_iff in H1, H2.
Qed.

Lemma append_assoc (a b c : string) : (a +:+ b) +:+ c = a +:+ (b +:+ c).
Proof. induction a as [|x a IH]; [reflexivity|]. now rewrite !append_cons, IH. Qed.

Lemma split_slash s : split ("/" +:+ s) = "" :: split s.
Proof. reflexivity. Qed.

Lemma split_join loc :
  forallb plain loc = true → loc ≠ [] → split (join loc) = "" :: loc.
Proof.
  induction loc as [|name rest IH]; intros Hp Hne; [congruence|].
  cbn in Hp. apply andb_prop in Hp as [Hn Hrest].
  cbn [join]. rewrite split_slash, (split_app _ _ (plain_slashless _ Hn)).
  destruct rest as [|name' rest'].
  - cbn. now rewrite append_nil_r.
  - rewrite IH by (assumption || discriminate). now rewrite append_nil_r.
Qed.

Lemma split_join_slash loc :
  forallb plain loc = true → loc ≠ [] → split (join loc +:+ "/") = "" :: loc ++ [""].
Proof.
  induction loc as [|name rest IH]; intros Hp Hne; [congruence|].
  cbn in Hp. apply andb_prop in Hp as [Hn Hrest].
  cbn [join]. rewrite !append_assoc, split_slash, (split_app _ _ (plain_slashless _ Hn)).
  destruct rest as [|name' rest'].
  - cbn [join]. rewrite append_nil_l. change (split "/") with [""; ""].
    simpl. now rewrite append_nil_r.
  - rewrite IH by (assumption || discriminate). now rewrite append_nil_r.
Qed.

Lemma absolute_join loc : loc ≠ [] → absolute (join loc) = true.
Proof. destruct loc; [congruence|reflexivity]. Qed.

Lemma join_not_empty loc : loc ≠ [] → String.eqb (join loc) "" = false.
Proof. destruct loc; [congruence|reflexivity]. Qed.

Lemma normalize_plain names stack :
  forallb plain names = true → normalize stack names = stack ++ names.
Proof.
  revert stack. induction names as [|name rest IH]; intros stack Hp; cbn.
  - now rewrite app_nil_r.
  - cbn in Hp. apply andb_prop in Hp as [Hn Hrest].
    destruct (plain_moves _ Hn) as [-> ->]. rewrite IH by assumption.
    now rewrite <- app_assoc.
Qed.

(** The directory part of a rendered location. *)
Lemma list_ascii_app (a b : string) :
  list_ascii_of_string (a +:+ b) = list_ascii_of_string a ++ list_ascii_of_string b.
Proof. induction a as [|x a IH]; [reflexivity|]. rewrite append_cons. cbn. now rewrite IH. Qed.

Lemma dirname_scan_name (chars before : list ascii) :
  forallb (λ c, negb (Ascii.eqb c slash)) chars = true → chars ≠ [] →
  ∀ m, dirname_scan m (chars ++ slash :: before) = Some before.
Proof.
  induction chars as [|c chars IH]; intros Hs Hne m; [congruence|].
  cbn in Hs. apply andb_prop in Hs as [Hc Hs]. apply negb_true_iff in Hc.
  cbn. rewrite Hc. destruct chars as [|c' chars'].
  - cbn. reflexivity.
  - apply IH; [assumption|discriminate].
Qed.

Lemma dirname_scan_none (chars : list ascii) :
  forallb (λ c, negb (Ascii.eqb c slash)) chars = true →
  ∀ m, dirname_scan m chars = None.
Proof.
  induction chars as [|c chars IH]; intros Hs m; [reflexivity|].
  cbn in Hs. apply andb_prop in Hs as [Hc Hs]. apply negb_true_iff in Hc.
  cbn. rewrite Hc. now apply IH.
Qed.

Lemma forallb_rev {A} (f : A → bool) l : forallb f (rev l) = forallb f l.
Proof.
  induction l as [|x l IH]; [reflexivity|]. cbn.
  rewrite forallb_app, IH. cbn. rewrite andb_true_r. apply andb_comm.
Qed.

Lemma plain_chars name :
  plain name = true →
  forallb (λ c, negb (Ascii.eqb c slash)) (list_ascii_of_string name) = true
  ∧ list_ascii_of_string name ≠ [].
Proof.
  intros Hp. split; [now apply plain_slashless|].
  destruct name; [discriminate Hp|discriminate].
Qed.

Lemma dirname_join parent name :
  forallb plain parent = true → plain name = true →
  dirname (join (parent ++ [name])) = render parent.
Proof.
  intros Hparent Hname. destruct (plain_chars _ Hname) as [Hs Hne].
  unfold dirname. destruct parent as [|first rest].
  - cbn [app join render]. rewrite append_nil_r, list_ascii_app.
    change (list_ascii_of_string "/") with [slash]. cbn [app].
    rewrite dirname_scan_none by now rewrite forallb_rev. reflexivity.
  - assert (Hchars : list_ascii_of_string (join ((first :: rest) ++ [name]))
                     = list_ascii_of_string (join (first :: rest))
                       ++ slash :: list_ascii_of_string name).
    { clear. induction (first :: rest) as [|x l IH].
      - cbn. now rewrite append_nil_r.
      - cbn [app join]. rewrite !list_ascii_app, IH. now rewrite <- !app_assoc. }
    rewrite Hchars. cbn [join]. rewrite list_ascii_app. cbn [list_ascii_of_string app].
    rewrite rev_app_distr. cbn [rev]. rewrite <- app_assoc. cbn [app].
    rewrite dirname_scan_name; [|now rewrite forallb_rev|].
    + cbn in Hparent. apply andb_prop in Hparent as [Hfirst _].
      destruct (plain_chars _ Hfirst) as [_ Hne1].
      rewrite rev_involutive.
      replace (Ascii.eqb "/" slash) with true by reflexivity. cbn [andb].
      rewrite bool_decide_eq_false_2.
      * cbn [render]. rewrite <- (string_of_list_ascii_of_string (join (first :: rest))).
        cbn [join]. rewrite !list_ascii_app. reflexivity.
      * rewrite list_ascii_app. intros Heq.
        apply (f_equal (@rev ascii)) in Heq. rewrite rev_involutive in Heq. cbn in Heq.
        apply app_eq_nil in Heq as [Heq _]. 
        destruct (list_ascii_of_string first); [congruence|discriminate].
    + intros Heq. apply (f_equal (@rev ascii)) in Heq. rewrite rev_involutive in Heq.
      cbn in Heq. congruence.
Qed.

End PathStrings.

(** ** Trees *)

Module Trees.
Import Posix PathStrings.

(** The entries of one directory. *)
Lemma eqb_false_ne (a b : string) : String.eqb a b = false ↔ a ≠ b.
Proof. apply String.eqb_neq. Qed.

Lemma child_set_same name x es : child name (set_child name x es) = Some x.
Proof.
  induction es as [|[n c] es IH]; cbn.
  - now rewrite String.eqb_refl.
  - destruct (String.eqb n name) eqn:E; cbn; rewrite E; [reflexivity|exact IH].
Qed.

Lemma child_set_other name other x es :
  other ≠ name → child other (set_child name x es) = child other es.
Proof.
  intros Hne. induction es as [|[n c] es IH]; cbn.
  - destruct (String.eqb_spec name other); [congruence|reflexivity].
  - destruct (String.eqb_spec n name) as [->|Hn]; cbn.
    + destruct (String.eqb_spec name other); [congruence|reflexivity].
    + now rewrite IH.
Qed.

Lemma child_del_other name other es :
  other ≠ name → child other (del_child name es) = child other es.
Proof.
  intros Hne. induction es as [|[n c] es IH]; cbn; [reflexivity|].
  destruct (String.eqb_spec n name) as [->|Hn]; cbn.
  - destruct (String.eqb_spec name other); [congruence|reflexivity].
  - now rewrite IH.
Qed.

Lemma existsb_eqb name names : existsb (String.eqb name) names = true ↔ name ∈ names.
Proof.
  rewrite existsb_exists. split.
  - intros (x & Hin & Heq). apply String.eqb_eq in Heq as <-. now apply list_elem_of_In.
  - intros Hin. exists name. split; [now apply list_elem_of_In|apply String.eqb_refl].
Qed.

Lemma distinct_NoDup names : distinct names = true ↔ NoDup names.
Proof.
  induction names as [|name rest IH]; cbn.
  - split; [constructor|reflexivity].
  - rewrite andb_true_iff, negb_true_iff, IH, NoDup_cons.
    rewrite <- not_true_iff_false, existsb_eqb. reflexivity.
Qed.

Lemma child_absent name es : name ∉ map fst es → child name es = None.
Proof.
  induction es as [|[n c] es IH]; cbn; [reflexivity|]. intros Hnot.
  rewrite not_elem_of_cons in Hnot. destruct Hnot as [Hne Hnot].
  destruct (String.eqb_spec n name); [congruence|now apply IH].
Qed.

Lemma child_present name es c : child name es = Some c → name ∈ map fst es.
Proof.
  induction es as [|[n c'] es IH]; cbn; [discriminate|].
  destruct (String.eqb_spec n name) as [->|Hne]; intros H.
  - apply elem_of_cons. now left.
  - apply elem_of_cons. right. now apply IH.
Qed.

Lemma child_In name es c : child name es = Some c → (name, c) ∈ es.
Proof.
  induction es as [|[n c'] es IH]; cbn; [discriminate|].
  destruct (String.eqb_spec n name) as [->|Hne]; intros H.
  - injection H as ->. apply elem_of_cons. now left.
  - apply elem_of_cons. right. now apply IH.
Qed.

Lemma set_child_absent name c es :
  name ∉ map fst es → set_child name c es = es ++ [(name, c)].
Proof.
  induction es as [|[n c'] es IH]; cbn; [reflexivity|]. intros Hnot.
  rewrite not_elem_of_cons in Hnot. destruct Hnot as [Hne Hnot].
  destruct (String.eqb_spec n name); [congruence|]. now rewrite IH.
Qed.

Lemma child_del_same name es :
  distinct (map fst es) = true → child name (del_child name es) = None.
Proof.
  rewrite distinct_NoDup.
  induction es as [|[n c] es IH]; cbn; [reflexivity|]. intros Hnd.
  apply NoDup_cons in Hnd as [Hnot Hnd].
  destruct (String.eqb_spec n name) as [->|Hne].
  - now apply child_absent.
  - cbn. destruct (String.eqb_spec n name); [congruence|now apply IH].
Qed.

(** Tidy trees. *)
Lemma tidy_Directory es :
  tidy (Directory es) = true →
  NoDup (map fst es) ∧ ∀ name c, (name, c) ∈ es → tidy c = true.
Proof.
  cbn. rewrite andb_true_iff, distinct_NoDup, forallb_forall.
  intros [Hnd Hall]. split; [exact Hnd|].
  intros name c Hin. apply list_elem_of_In in Hin. exact (Hall _ Hin).
Qed.

Lemma tidy_child es name c :
  tidy (Directory es) = true → child name es = Some c → tidy c = true.
Proof.
  intros Ht Hc. apply tidy_Directory in Ht as [_ Hall].
  eapply Hall, child_In, Hc.
Qed.

Lemma tidy_Directory_iff es :
  tidy (Directory es) = true ↔
  NoDup (map fst es) ∧ ∀ name c, (name, c) ∈ es → tidy c = true.
Proof.
  split; [apply tidy_Directory|]. intros [Hnd Hall].
  cbn. rewrite andb_true_iff, distinct_NoDup, forallb_forall.
  split; [exact Hnd|]. intros [name c] Hin. apply (Hall name c).
  now apply list_elem_of_In.
Qed.

Lemma set_child_names name x es :
  name ∈ map fst es → map fst (set_child name x es) = map fst es.
Proof.
  induction es as [|[n c] es IH]; cbn; intros Hin.
  - now apply elem_of_nil in Hin.
  - destruct (String.eqb_spec n name) as [->|Hne]; [reflexivity|].
    cbn. rewrite IH; [reflexivity|].
    apply elem_of_cons in Hin as [Heq|Hin]; [congruence|exact Hin].
Qed.

Lemma set_child_entries name x es e :
  e ∈ set_child name x es → e = (name, x) ∨ e ∈ es.
Proof.
  induction es as [|[n c] es IH]; cbn; intros Hin.
  - apply list_elem_of_singleton in Hin. now left.
  - destruct (String.eqb_spec n name) as [->|Hne].
    + apply elem_of_cons in Hin as [->|Hin]; [now left|right].
      apply elem_of_cons. now right.
    + apply elem_of_cons in Hin as [->|Hin].
      * right. apply elem_of_cons. now left.
      * destruct (IH Hin) as [->|Hin']; [now left|right].
        apply elem_of_cons. now right.
Qed.

Lemma del_child_entries name es e : e ∈ del_child name es → e ∈ es.
Proof.
  induction es as [|[n c] es IH]; cbn; intros Hin; [exact Hin|].
  destruct (String.eqb_spec n name) as [->|Hne].
  - apply elem_of_cons. now right.
  - apply elem_of_cons in Hin as [->|Hin]; apply elem_of_cons; [now left|right].
    now apply IH.
Qed.

Lemma del_child_names name es :
  NoDup (map fst es) → NoDup (map fst (del_child name es)).
Proof.
  induction es as [|[n c] es IH]; cbn; intros Hnd; [exact Hnd|].
  apply NoDup_cons in Hnd as [Hnot Hnd].
  destruct (String.eqb_spec n name) as [->|Hne]; [exact Hnd|].
  cbn. apply NoDup_cons. split; [|now apply IH].
  intros Hin. apply Hnot. apply list_elem_of_fmap in Hin as ([n' c'] & -> & Hin).
  apply list_elem_of_fmap. exists (n', c'). split; [reflexivity|].
  eapply del_child_entries, Hin.
Qed.

Lemma tidy_set_child name x es :
  tidy (Directory es) = true → tidy x = true →
  tidy (Directory (set_child name x es)) = true.
Proof.
  rewrite !tidy_Directory_iff. intros [Hnd Hall] Hx. split.
  - destruct (decide (name ∈ map fst es)) as [Hin|Hnot].
    + now rewrite set_child_names.
    + rewrite (set_child_absent _ _ _ Hnot), map_app. cbn.
      apply NoDup_app. split; [exact Hnd|]. split; [|apply NoDup_singleton].
      intros n Hn Hn'. apply list_elem_of_singleton in Hn'. congruence.
  - intros n c Hin. apply set_child_entries in Hin as [[= -> ->]|Hin];
      [exact Hx|eapply Hall, Hin].
Qed.

Lemma tidy_del_child name es :
  tidy (Directory es) = true → tidy (Directory (del_child name es)) = true.
Proof.
  rewrite !tidy_Directory_iff. intros [Hnd Hall]. split.
  - now apply del_child_names.
  - intros n c Hin. eapply Hall, del_child_entries, Hin.
Qed.

Lemma tidy_put loc x tree :
  tidy tree = true → tidy x = true → tidy (put loc x tree) = true.
Proof.
  revert tree. induction loc as [|name rest IH]; intros tree Ht Hx; [exact Hx|].
  destruct tree as [| |es]; try exact Ht.
  destruct rest as [|r rest].
  - cbn [put]. now apply tidy_set_child.
  - cbn [put]. destruct (child name es) as [c|] eqn:Hc; [|exact Ht].
    apply tidy_set_child; [exact Ht|]. apply IH; [|exact Hx].
    eapply tidy_child; eassumption.
Qed.

Lemma tidy_del loc tree : tidy tree = true → tidy (del loc tree) = true.
Proof.
  revert tree. induction loc as [|name rest IH]; intros tree Ht; [exact Ht|].
  destruct tree as [| |es]; try exact Ht.
  destruct rest as [|r rest].
  - cbn [del]. now apply tidy_del_child.
  - cbn [del]. destruct (child name es) as [c|] eqn:Hc; [|exact Ht].
    apply tidy_set_child; [exact Ht|]. apply IH. eapply tidy_child; eassumption.
Qed.

(** Reading a location. *)
Lemma get_app a b tree :
  get (a ++ b) tree = match get a tree with Some n => get b n | None => None end.
Proof.
  revert tree. induction a as [|name a IH]; intros tree; cbn; [reflexivity|].
  destruct tree as [| |es]; try reflexivity.
  destruct (child name es); [apply IH|reflexivity].
Qed.

Lemma get_inside a b tree n :
  get (a ++ b) tree = Some n → b ≠ [] → is_directory (get a tree) = true.
Proof.
  rewrite get_app. destruct (get a tree) as [[| |es]|]; try discriminate;
    destruct b; cbn; congruence.
Qed.

Lemma is_directory_prefix a b tree :
  is_directory (get (a ++ b) tree) = true → is_directory (get a tree) = true.
Proof.
  destruct b as [|x b]; [now rewrite app_nil_r|].
  destruct (get (a ++ x :: b) tree) as [n|] eqn:E; [|discriminate].
  intros _. now apply (get_inside _ _ _ _ E).
Qed.

Lemma is_directory_Some o : is_directory o = true → ∃ es, o = Some (Directory es).
Proof. destruct o as [[| |es]|]; try discriminate. eauto. Qed.

(** Writing and removing a location. *)
Lemma removelast_cons {A} (x : A) l : l ≠ [] → removelast (x :: l) = x :: removelast l.
Proof. destruct l; [congruence|reflexivity]. Qed.

Lemma get_put_same loc x tree :
  loc ≠ [] → is_directory (get (removelast loc) tree) = true →
  get loc (put loc x tree) = Some x.
Proof.
  revert tree. induction loc as [|name rest IH]; intros tree Hne Hdir; [congruence|].
  destruct rest as [|name' rest'].
  - cbn in Hdir. destruct tree as [| |es]; try discriminate.
    cbn. now rewrite child_set_same.
  - rewrite removelast_cons in Hdir by discriminate.
    cbn [get] in Hdir. destruct tree as [| |es]; try discriminate.
    destruct (child name es) as [c|] eqn:Hc; [|discriminate].
    cbn [put]. rewrite Hc. cbn [get]. rewrite child_set_same.
    apply IH; [discriminate|exact Hdir].
Qed.

Lemma within_cons x a y b : within (x :: a) (y :: b) = String.eqb x y && within a b.
Proof. reflexivity. Qed.

Lemma get_put_apart loc other x tree :
  within loc other = false → within other loc = false →
  get other (put loc x tree) = get other tree.
Proof.
  revert other tree. induction loc as [|name rest IH]; intros other tree H1 H2;
    [discriminate|].
  destruct other as [|name' rest']; [discriminate|].
  destruct tree as [| |es]; try reflexivity.
  rewrite within_cons in H1, H2.
  destruct (String.eqb_spec name name') as [<-|Hne].
  - rewrite String.eqb_refl in H2. cbn in H1, H2.
    destruct rest as [|r rest]; [discriminate|].
    cbn [put]. destruct (child name es) as [c|] eqn:Hc; [|reflexivity].
    cbn [get]. rewrite child_set_same, Hc. now apply IH.
  - cbn [put]. destruct rest as [|r rest].
    + cbn [get]. now rewrite child_set_other by congruence.
    + destruct (child name es) as [c|] eqn:Hc; [|reflexivity].
      cbn [get]. now rewrite child_set_other by congruence.
Qed.

Lemma get_del_apart loc other tree :
  within loc other = false → within other loc = false →
  get other (del loc tree) = get other tree.
Proof.
  revert other tree. induction loc as [|name rest IH]; intros other tree H1 H2;
    [discriminate|].
  destruct other as [|name' rest']; [discriminate|].
  destruct tree as [| |es]; try reflexivity.
  rewrite within_cons in H1, H2.
  destruct (String.eqb_spec name name') as [<-|Hne].
  - rewrite String.eqb_refl in H2. cbn in H1, H2.
    destruct rest as [|r rest]; [discriminate|].
    cbn [del]. destruct (child name es) as [c|] eqn:Hc; [|reflexivity].
    cbn [get]. rewrite child_set_same, Hc. now apply IH.
  - cbn [del]. destruct rest as [|r rest].
    + cbn [get]. now rewrite child_del_other by congruence.
    + destruct (child name es) as [c|] eqn:Hc; [|reflexivity].
      cbn [get]. now rewrite child_set_other by congruence.
Qed.

Lemma get_del_same loc tree :
  tidy tree = true → loc ≠ [] → get loc (del loc tree) = None.
Proof.
  revert tree. induction loc as [|name rest IH]; intros tree Ht Hne; [congruence|].
  destruct tree as [| |es]; try reflexivity.
  destruct rest as [|r rest].
  - cbn. rewrite child_del_same; [reflexivity|].
    cbn in Ht. now apply andb_prop in Ht as [Ht _].
  - cbn [del]. destruct (child name es) as [c|] eqn:Hc.
    + cbn [get]. rewrite child_set_same. apply IH; [|discriminate].
      eapply tidy_child; eassumption.
    + cbn [get]. now rewrite Hc.
Qed.

Lemma put_deeper name rest x es :
  rest ≠ [] →
  put (name :: rest) x (Directory es) =
    match child name es with
    | Some c => Directory (set_child name (put rest x c) es)
    | None => Directory es
    end.
Proof. destruct rest; [congruence|reflexivity]. Qed.

Lemma del_deeper name rest es :
  rest ≠ [] →
  del (name :: rest) (Directory es) =
    match child name es with
    | Some c => Directory (set_child name (del rest c) es)
    | None => Directory es
    end.
Proof. destruct rest; [congruence|reflexivity]. Qed.

(** A directory on the way to a location stays one when the location
    is written or removed. *)
Lemma put_keeps_directories a b x tree :
  b ≠ [] → is_directory (get a tree) = true →
  is_directory (get a (put (a ++ b) x tree)) = true.
Proof.
  revert tree. induction a as [|name a IH]; intros tree Hb Hdir.
  - cbn in Hdir. destruct tree as [| |es]; try discriminate.
    cbn [app get]. destruct b as [|y b]; [congruence|].
    cbn [put]. destruct b; [reflexivity|]. now destruct (child y es).
  - cbn [get] in Hdir. destruct tree as [| |es]; try discriminate.
    destruct (child name es) as [c|] eqn:Hc; [|discriminate].
    cbn [app]. rewrite put_deeper, Hc.
    + cbn [get]. rewrite child_set_same. now apply IH.
    + intros E. apply app_eq_nil in E as [_ ->]. congruence.
Qed.

Lemma del_keeps_directories a b tree :
  b ≠ [] → is_directory (get a tree) = true →
  is_directory (get a (del (a ++ b) tree)) = true.
Proof.
  revert tree. induction a as [|name a IH]; intros tree Hb Hdir.
  - cbn in Hdir. destruct tree as [| |es]; try discriminate.
    cbn [app get]. destruct b as [|y b]; [congruence|].
    cbn [del]. destruct b; [reflexivity|]. now destruct (child y es).
  - cbn [get] in Hdir. destruct tree as [| |es]; try discriminate.
    destruct (child name es) as [c|] eqn:Hc; [|discriminate].
    cbn [app]. rewrite del_deeper, Hc.
    + cbn [get]. rewrite child_set_same. now apply IH.
    + intros E. apply app_eq_nil in E as [_ ->]. congruence.
Qed.

End Trees.

(** ** Path resolution *)

Module Resolution.
Import Posix PathStrings Trees.

Lemma walk_through follow tree names cur rest :
  forallb plain names = true →
  is_directory (get (cur ++ names) tree) = true →
  walk follow tree cur (names ++ rest) = walk follow tree (cur ++ names) rest.
Proof.
  revert cur. induction names as [|name names IH]; intros cur Hp Hdir.
  - now rewrite app_nil_r.
  - cbn in Hp. apply andb_prop in Hp as [Hn Hp].
    destruct (plain_moves _ Hn) as [Hstay Hup].
    cbn [app walk]. rewrite Hstay, Hup.
    replace (cur ++ name :: names) with ((cur ++ [name]) ++ names) in *
      by now rewrite <- app_assoc.
    destruct (is_directory_Some _ (is_directory_prefix _ _ _ Hdir)) as [es ->].
    now apply IH.
Qed.

Lemma walk_stay follow tree cur names :
  walk follow tree cur ("" :: names) = walk follow tree cur names.
Proof. reflexivity. Qed.

Lemma walk_last follow tree cur name :
  plain name = true → walk follow tree cur [name] = Some (cur ++ [name]).
Proof.
  intros Hn. destruct (plain_moves _ Hn) as [Hstay Hup].
  cbn. rewrite Hstay, Hup. now destruct (get (cur ++ [name]) tree) as [[| |]|].
Qed.

Lemma locate_eq fuel tree cur names :
  locate fuel tree cur names =
    walk (match fuel with O => λ _ _, None | S fuel' => locate fuel' tree end)
         tree cur names.
Proof. destruct fuel; reflexivity. Qed.

Lemma realpath_eq fuel tree cur names :
  realpath fuel tree cur names =
    match locate fuel tree cur names with
    | Some loc =>
        match get loc tree with
        | Some (Link dest) =>
            match fuel with
            | O => None
            | S fuel' =>
                realpath fuel' tree (if absolute dest then [] else removelast loc)
                         (split dest)
            end
        | Some _ => Some loc
        | None => None
        end
    | None => None
    end.
Proof. destruct fuel; reflexivity. Qed.

Lemma removelast_app_last {A} (l : list A) : l ≠ [] → ∃ x, l = removelast l ++ [x].
Proof.
  intros Hne. destruct (exists_last Hne) as (l' & x & ->).
  exists x. now rewrite removelast_last.
Qed.

Lemma forallb_removelast {A} (f : A → bool) l :
  forallb f l = true → forallb f (removelast l) = true.
Proof.
  destruct l as [|y l] using rev_ind; [easy|].
  rewrite removelast_last, forallb_app. intros H. now apply andb_prop in H as [H _].
Qed.

(** A location made of plain names is found where it is, when its
    parent is a directory. *)
Lemma locate_plain fuel tree loc :
  forallb plain loc = true → loc ≠ [] →
  is_directory (get (removelast loc) tree) = true →
  locate fuel tree [] loc = Some loc.
Proof.
  intros Hp Hne Hdir. rewrite locate_eq.
  destruct (removelast_app_last _ Hne) as [x Hx].
  pose proof Hp as Hp'. rewrite Hx, forallb_app in Hp'.
  apply andb_prop in Hp' as [Hinit Hlast]. cbn in Hlast. rewrite andb_true_r in Hlast.
  rewrite Hx at 1. rewrite walk_through by assumption.
  cbn [app]. rewrite walk_last by assumption. now rewrite <- Hx.
Qed.

Lemma lookup_root w : lookup false w "/" = Some [].
Proof. reflexivity. Qed.

Lemma lookup_root_follow w :
  is_link (Some (root w)) = false → lookup true w "/" = Some [].
Proof. unfold lookup. cbn. now destruct (root w). Qed.

Lemma lookup_render w loc :
  forallb plain loc = true →
  is_directory (get (removelast loc) (root w)) = true →
  lookup false w (render loc) = Some loc.
Proof.
  intros Hp Hdir. destruct loc as [|name rest]; [apply lookup_root|].
  unfold lookup, render. rewrite join_not_empty, absolute_join by discriminate.
  rewrite split_join by (assumption || discriminate).
  rewrite locate_eq, walk_stay.
  rewrite <- locate_eq. apply locate_plain; [assumption|discriminate|assumption].
Qed.

Lemma lookup_render_follow w loc :
  forallb plain loc = true →
  is_directory (get (removelast loc) (root w)) = true →
  is_link (get loc (root w)) = false →
  lookup true w (render loc) = match get loc (root w) with
                               | Some _ => Some loc
                               | None => None
                               end.
Proof.
  intros Hp Hdir Hlink. destruct loc as [|name rest].
  - now rewrite lookup_root_follow.
  - pose proof (lookup_render w _ Hp Hdir) as Hl.
    unfold lookup, render in *. rewrite join_not_empty, absolute_join in * by discriminate.
    rewrite realpath_eq, Hl.
    destruct (get (name :: rest) (root w)) as [[| |]|]; try reflexivity. discriminate.
Qed.

(** The same with the trailing slash that [copyWithRsync] appends. *)
Lemma lookup_render_slash w loc es follow :
  forallb plain loc = true → loc ≠ [] →
  get loc (root w) = Some (Directory es) →
  lookup follow w (render loc +:+ "/") = Some loc.
Proof.
  intros Hp Hne Hget.
  assert (Hloc : locate SYMLOOP_MAX (root w) [] (split (render loc +:+ "/")) = Some loc).
  { destruct loc as [|name rest]; [congruence|]. unfold render.
    rewrite split_join_slash by (assumption || discriminate).
    rewrite locate_eq, walk_stay.
    change (name :: rest ++ [""]) with ((name :: rest) ++ [""]).
    rewrite walk_through; [reflexivity|assumption|]. cbn [app]. now rewrite Hget. }
  unfold lookup.
  assert (Habs : absolute (render loc +:+ "/") = true) by now destruct loc.
  assert (Hnon : String.eqb (render loc +:+ "/") "" = false) by now destruct loc.
  rewrite Habs, Hnon. destruct follow; [|exact Hloc].
  rewrite realpath_eq, Hloc, Hget. reflexivity.
Qed.

Lemma lookup_render_slash_missing w loc :
  forallb plain loc = true → loc ≠ [] →
  is_directory (get (removelast loc) (root w)) = true →
  get loc (root w) = None →
  lookup false w (render loc +:+ "/") = Some loc.
Proof.
  intros Hp Hne Hdir Hget. unfold lookup.
  assert (Habs : absolute (render loc +:+ "/") = true) by now destruct loc.
  assert (Hnon : String.eqb (render loc +:+ "/") "" = false) by now destruct loc.
  rewrite Habs, Hnon.
  destruct loc as [|name rest]; [congruence|]. unfold render.
  rewrite split_join_slash by (assumption || discriminate).
  rewrite locate_eq, walk_stay.
  destruct (removelast_app_last (name :: rest)) as [x Hx]; [discriminate|].
  pose proof Hp as Hp'. rewrite Hx, forallb_app in Hp'.
  apply andb_prop in Hp' as [Hinit Hlast]. cbn in Hlast. rewrite andb_true_r in Hlast.
  change (name :: rest ++ [""]) with ((name :: rest) ++ [""]).
  rewrite Hx at 1. rewrite <- app_assoc. rewrite walk_through by assumption.
  destruct (plain_moves _ Hlast) as [Hstay Hup].
  cbn [app walk]. rewrite Hstay, Hup. rewrite <- Hx, Hget. reflexivity.
Qed.

Lemma lookup_render_slash_file w loc data :
  forallb plain loc = true → loc ≠ [] →
  get loc (root w) = Some (File data) →
  lookup false w (render loc +:+ "/") = None.
Proof.
  intros Hp Hne Hget. unfold lookup.
  assert (Habs : absolute (render loc +:+ "/") = true) by now destruct loc.
  assert (Hnon : String.eqb (render loc +:+ "/") "" = false) by now destruct loc.
  rewrite Habs, Hnon.
  destruct loc as [|name rest]; [congruence|]. unfold render.
  rewrite split_join_slash by (assumption || discriminate).
  rewrite locate_eq, walk_stay.
  destruct (removelast_app_last (name :: rest)) as [x Hx]; [discriminate|].
  pose proof Hp as Hp'. rewrite Hx, forallb_app in Hp'.
  apply andb_prop in Hp' as [Hinit Hlast]. cbn in Hlast. rewrite andb_true_r in Hlast.
  assert (Hdir : is_directory (get (removelast (name :: rest)) (root w)) = true).
  { rewrite Hx in Hget. eapply get_inside; [exact Hget|discriminate]. }
  change (name :: rest ++ [""]) with ((name :: rest) ++ [""]).
  rewrite Hx at 1. rewrite <- app_assoc. rewrite walk_through by assumption.
  destruct (plain_moves _ Hlast) as [Hstay Hup].
  cbn [app walk]. rewrite Hstay, Hup. rewrite <- Hx, Hget. reflexivity.
Qed.

(** mkdir -p of a directory that is there. *)
Lemma mkdirp_existing tree names cur :
  forallb plain names = true →
  is_directory (get (cur ++ names) tree) = true →
  mkdirp tree cur names = Some tree.
Proof.
  revert cur. induction names as [|name names IH]; intros cur Hp Hdir; [reflexivity|].
  cbn in Hp. apply andb_prop in Hp as [Hn Hp].
  destruct (plain_moves _ Hn) as [Hstay Hup].
  cbn [mkdirp]. rewrite Hstay, Hup.
  replace (cur ++ name :: names) with ((cur ++ [name]) ++ names) in *
    by now rewrite <- app_assoc.
  destruct (is_directory_Some _ (is_directory_prefix _ _ _ Hdir)) as [es ->].
  now apply IH.
Qed.

Lemma mkdirp_stay tree cur names :
  mkdirp tree cur ("" :: names) = mkdirp tree cur names.
Proof. reflexivity. Qed.

Lemma with_root_same w : with_root w (root w) = w.
Proof. now destruct w. Qed.

Lemma mkdirSync_existing w loc :
  forallb plain loc = true →
  is_directory (get loc (root w)) = true →
  mkdirSync (render loc) w = (Return tt, w).
Proof.
  intros Hp Hdir. unfold mkdirSync. destruct loc as [|name rest].
  - cbn. now rewrite with_root_same.
  - unfold render. rewrite join_not_empty, absolute_join by discriminate.
    rewrite split_join by (assumption || discriminate).
    rewrite mkdirp_stay, mkdirp_existing by assumption. now rewrite with_root_same.
Qed.

(** Grafted where nothing is, a tidy node arrives as it is. *)
Lemma node_nested_ind (P : node → Prop) :
  (∀ data, P (File data)) →
  (∀ dest, P (Link dest)) →
  (∀ es, Forall (λ e, P (snd e)) es → P (Directory es)) →
  ∀ n, P n.
Proof.
  intros HF HL HD. fix IH 1. intros [data|dest|es].
  - apply HF.
  - apply HL.
  - apply HD. induction es as [|[name c] es IHes]; constructor; [apply IH|exact IHes].
Qed.

Lemma graft_entries_fresh copy p todo done :
  (∀ name c, (name, c) ∈ todo → ∀ q, copy q c None = (None, Some c)) →
  NoDup (map fst (done ++ todo)) →
  graft_entries copy p todo done = (None, done ++ todo).
Proof.
  revert done. induction todo as [|[name c] todo IH]; intros done Hcopy Hnd.
  - cbn. now rewrite app_nil_r.
  - cbn [graft_entries].
    assert (Hnot : name ∉ map fst done).
    { rewrite map_app in Hnd. apply NoDup_app in Hnd as (_ & Hdisj & _).
      intros Hin. apply (Hdisj _ Hin). cbn. apply elem_of_cons. now left. }
    rewrite (child_absent _ _ Hnot), (Hcopy name c) by (apply elem_of_cons; now left).
    rewrite (set_child_absent _ _ _ Hnot).
    rewrite IH.
    + now rewrite <- app_assoc.
    + intros n c' Hin. apply (Hcopy n c'). apply elem_of_cons. now right.
    + now rewrite <- app_assoc.
Qed.

Lemma graft_fresh s : tidy s = true → ∀ p, graft p s None = (None, Some s).
Proof.
  induction s as [data|dest|es IH] using node_nested_ind; intros Ht p;
    [reflexivity|reflexivity|].
  apply tidy_Directory in Ht as [Hnd Hall].
  cbn [graft]. rewrite graft_entries_fresh; [reflexivity| |exact Hnd].
  intros name c Hin q. rewrite Forall_forall in IH.
  apply (IH (name, c) Hin). eapply Hall, Hin.
Qed.


Lemma within_nil_l b : within [] b = true.
Proof. now destruct b. Qed.


End Resolution.

(** ** The calls of [fs] on rendered locations *)

Module Calls.
Import Posix PathStrings Trees Resolution.

Lemma tidy_get loc tree n : tidy tree = true → get loc tree = Some n → tidy n = true.
Proof.
  revert tree. induction loc as [|name rest IH]; intros tree Ht Hg.
  - cbn in Hg. congruence.
  - cbn in Hg. destruct tree as [| |es]; try discriminate.
    destruct (child name es) as [c|] eqn:Hc; [|discriminate].
    eapply IH; [|exact Hg]. eapply tidy_child; eassumption.
Qed.

Lemma parent_of_existing loc tree n :
  loc ≠ [] → get loc tree = Some n → is_directory (get (removelast loc) tree) = true.
Proof.
  intros Hne Hg. destruct (removelast_app_last _ Hne) as [x Hx].
  rewrite Hx in Hg. eapply get_inside; [exact Hg|discriminate].
Qed.


Lemma is_directory_prefix_removelast loc tree :
  is_directory (get loc tree) = true →
  is_directory (get (removelast loc) tree) = true.
Proof.
  intros H. destruct loc as [|x l] using rev_ind; [exact H|].
  rewrite removelast_last. eapply is_directory_prefix, H.
Qed.

Lemma not_within_nil a b : within a b = false → a ≠ [].
Proof. intros H ->. now rewrite within_nil_l in H. Qed.

Section OneWorld.
Variables (w : World) (loc : list string).
Hypothesis plain_loc : forallb plain loc = true.
Hypothesis parent_dir : is_directory (get (removelast loc) (root w)) = true.

Lemma stat_render n :
  get loc (root w) = Some n → is_link (Some n) = false →
  statSync (render loc) w = Return (stats_of n).
Proof.
  intros Hg Hl. unfold statSync, stat_with.
  rewrite lookup_render_follow, Hg by (assumption || now rewrite Hg). now rewrite Hg.
Qed.

Lemma exists_render n :
  get loc (root w) = Some n → is_link (Some n) = false →
  existsSync (render loc) w = true.
Proof. intros Hg Hl. unfold existsSync. now rewrite (stat_render n). Qed.

Lemma exists_render_missing :
  get loc (root w) = None → existsSync (render loc) w = false.
Proof.
  intros Hg. unfold existsSync, statSync, stat_with.
  rewrite lookup_render_follow, Hg by (assumption || now rewrite Hg). reflexivity.
Qed.

Lemma lstat_render n :
  get loc (root w) = Some n → lstatSync (render loc) w = Return (stats_of n).
Proof.
  intros Hg. unfold lstatSync, stat_with.
  rewrite lookup_render, Hg by assumption. reflexivity.
Qed.

Lemma unlink_render data :
  get loc (root w) = Some (File data) →
  unlinkSync (render loc) w = (Return tt, with_root w (del loc (root w))).
Proof.
  intros Hg. unfold unlinkSync. rewrite lookup_render, Hg by assumption. reflexivity.
Qed.

Lemma rm_render n :
  loc ≠ [] → get loc (root w) = Some n →
  rmSync (render loc) w = (Return tt, with_root w (del loc (root w))).
Proof.
  intros Hne Hg. unfold rmSync. rewrite lookup_render, Hg by assumption.
  destruct loc; [congruence|reflexivity].
Qed.
End OneWorld.


(** The world with another tree. *)
Lemma root_with_root w t : root (with_root w t) = t.
Proof. reflexivity. Qed.

Lemma with_root_twice w t1 t2 : with_root (with_root w t1) t2 = with_root w t2.
Proof. reflexivity. Qed.

Section Mirror.
Variables (S D : list string) (es : list (string * node)).
Hypothesis plain_S : forallb plain S = true.
Hypothesis plain_D : forallb plain D = true.
Hypothesis apart_SD : within S D = false.
Hypothesis apart_DS : within D S = false.
Hypothesis tidy_source : tidy (Directory es) = true.

Lemma S_not_root : S ≠ [].
Proof. exact (not_within_nil _ _ apart_SD). Qed.

Lemma D_not_root : D ≠ [].
Proof. exact (not_within_nil _ _ apart_DS). Qed.

Lemma plain_parent : forallb plain (removelast D) = true.
Proof. now apply forallb_removelast. Qed.

Lemma dirname_target : dirname (render D) = render (removelast D).
Proof.
  destruct (removelast_app_last _ D_not_root) as [x Hx].
  pose proof plain_D as Hp. rewrite Hx, forallb_app in Hp.
  apply andb_prop in Hp as [Hinit Hlast]. cbn in Hlast. rewrite andb_true_r in Hlast.
  rewrite Hx at 1. unfold render at 1.
  destruct (removelast D ++ [x]) eqn:E; [now apply app_eq_nil in E as [_ ?]|].
  rewrite <- E. now apply dirname_join.
Qed.

Lemma set_up_source_parent w :
  set_up S D es w → is_directory (get (removelast S) (root w)) = true.
Proof. intros [Hs _]. eapply parent_of_existing; [exact S_not_root|exact Hs]. Qed.

Lemma set_up_put w n :
  set_up S D es w → set_up S D es (with_root w (put D n (root w))).
Proof.
  intros [Hs Hp]. split; rewrite root_with_root.
  - now rewrite get_put_apart.
  - destruct (removelast_app_last _ D_not_root) as [x Hx].
    rewrite Hx at 2. now apply put_keeps_directories.
Qed.

Lemma set_up_del w :
  set_up S D es w → set_up S D es (with_root w (del D (root w))).
Proof.
  intros [Hs Hp]. split; rewrite root_with_root.
  - now rewrite get_del_apart.
  - destruct (removelast_app_last _ D_not_root) as [x Hx].
    rewrite Hx at 2. now apply del_keeps_directories.
Qed.

Lemma ls_render w loc entries :
  forallb plain loc = true → get loc (root w) = Some (Directory entries) →
  loc ≠ [] → ls (render loc) w = Some entries.
Proof.
  intros Hp Hg Hne. unfold ls.
  rewrite lookup_render_follow, Hg; [now rewrite Hg|assumption| |now rewrite Hg].
  eapply parent_of_existing; eassumption.
Qed.

Lemma mirrored_put w :
  set_up S D es w → mirrored S D es (with_root w (put D (Directory es) (root w))).
Proof.
  intros Hw. destruct (set_up_put w (Directory es) Hw) as [Hs Hp].
  destruct Hw as [Hs0 Hp0]. split.
  - apply ls_render; [exact plain_D| |exact D_not_root].
    rewrite root_with_root. apply get_put_same; [exact D_not_root|exact Hp0].
  - apply ls_render; [exact plain_S|exact Hs|exact S_not_root].
Qed.

Lemma ordinary_put w :
  tidy (root w) = true → set_up S D es w →
  ordinary S D es (with_root w (put D (Directory es) (root w))).
Proof.
  intros Ht Hw. split; [|split].
  - rewrite root_with_root. now apply tidy_put.
  - rewrite root_with_root, get_put_same; [reflexivity|exact D_not_root|exact (proj2 Hw)].
  - now apply set_up_put.
Qed.

(** The recursive copy onto a target that is not there. *)
Lemma cpSync_fresh w :
  set_up S D es w → get D (root w) = None →
  cpSync (render S) (render D) w
  = (Return tt, with_root w (put D (Directory es) (root w))).
Proof.
  intros Hw Hnone. pose proof (set_up_source_parent w Hw) as HSp.
  destruct Hw as [Hs Hp]. unfold cpSync.
  rewrite (lookup_render w S plain_S HSp), Hs.
  rewrite (lookup_render w D plain_D Hp), Hnone.
  replace (bool_decide (@None node ≠ None)) with false
    by (symmetry; apply bool_decide_eq_false_2; intros H; now apply H).
  rewrite andb_false_r.
  assert (Hnorm : ∀ loc, forallb plain loc = true → loc ≠ [] →
            normalize (if absolute (render loc) then [] else cwd w) (split (render loc))
            = loc).
  { intros loc Hpl Hne. destruct loc as [|x l]; [congruence|]. unfold render.
    rewrite absolute_join, split_join by (assumption || discriminate).
    change (normalize [] ("" :: x :: l)) with (normalize [] (x :: l)).
    now rewrite normalize_plain. }
  rewrite (Hnorm S plain_S S_not_root), (Hnorm D plain_D D_not_root), apart_SD.
  cbn [stats_of isDirectory andb orb].
  rewrite dirname_target.
  destruct (is_directory_Some _ Hp) as [ps Hps].
  rewrite (exists_render w (removelast D) plain_parent
             (is_directory_prefix_removelast _ _ Hp) _ Hps eq_refl).
  rewrite (lookup_render w D plain_D Hp), Hnone.
  rewrite (graft_fresh _ tidy_source). reflexivity.
Qed.

End Mirror.

End Calls.

(** ** Prefixes of strings and of locations *)

Module Prefixes.
Import Posix PathStrings Trees Resolution Calls.

Lemma prefix_cons a s b t :
  String.prefix (String a s) (String b t) = true ↔ a = b ∧ String.prefix s t = true.
Proof.
  cbn. destruct (ascii_dec a b) as [->|Hne]; [tauto|].
  split; [discriminate|]. now intros [? _].
Qed.

Lemma prefix_nil_r a s : String.prefix (String a s) "" = false.
Proof. reflexivity. Qed.

Lemma slashless_cons c s :
  slashless (String c s) = true ↔ c ≠ slash ∧ slashless s = true.
Proof.
  unfold slashless. cbn. rewrite andb_true_iff, negb_true_iff.
  now rewrite Ascii.eqb_neq.
Qed.

(** Two components that end at a slash and agree up to there are the
    same component. *)
Lemma prefix_component s d X Y :
  slashless s = true → slashless d = true →
  (Y = "" ∨ ∃ Y', Y = String slash Y') →
  String.prefix (s +:+ String slash X) (d +:+ Y) = true →
  s = d ∧ String.prefix (String slash X) Y = true.
Proof.
  revert d. induction s as [|c s IH]; intros d Hs Hd HY Hp.
  - rewrite append_nil_l in Hp. destruct d as [|c' d].
    + now rewrite append_nil_l in Hp.
    + rewrite append_cons in Hp. apply prefix_cons in Hp as [<- _].
      apply slashless_cons in Hd as [Hd _]. congruence.
  - apply slashless_cons in Hs as [Hc Hs]. rewrite append_cons in Hp.
    destruct d as [|c' d].
    + rewrite append_nil_l in Hp. destruct HY as [->|[Y' ->]]; [discriminate|].
      apply prefix_cons in Hp as [-> _]. congruence.
    + rewrite append_cons in Hp. apply prefix_cons in Hp as [<- Hp].
      apply slashless_cons in Hd as [_ Hd].
      destruct (IH d Hs Hd HY Hp) as [-> Hrest]. now split.
Qed.

Lemma join_shape loc : join loc = "" ∨ ∃ Y', join loc = String slash Y'.
Proof. destruct loc as [|x l]; [now left|right]. cbn [join]. eauto. Qed.

Lemma prefix_join S D :
  forallb plain S = true → forallb plain D = true → S ≠ [] →
  String.prefix (join S +:+ "/") (join D) = true → within S D = true.
Proof.
  revert D. induction S as [|s S IH]; intros D HS HD Hne Hp; [congruence|].
  cbn in HS. apply andb_prop in HS as [Hs HS].
  destruct D as [|d D]; [discriminate Hp|].
  cbn in HD. apply andb_prop in HD as [Hd HD].
  cbn [join] in Hp. rewrite !append_assoc in Hp.
  change ("/" +:+ ?x) with (String slash x) in Hp.
  apply prefix_cons in Hp as [_ Hp].
  assert (HX : ∃ X, join S +:+ "/" = String slash X).
  { destruct S as [|x l]; cbn [join]; [now exists ""|].
    rewrite !append_assoc. eauto. }
  destruct HX as [X HX]. rewrite HX in Hp.
  destruct (prefix_component s d X (join D) (plain_slashless _ Hs) (plain_slashless _ Hd)
              (join_shape D) Hp) as [-> Hrest].
  rewrite within_cons, String.eqb_refl. cbn [andb].
  destruct S as [|x l]; [apply within_nil_l|].
  apply IH; [assumption|assumption|discriminate|]. now rewrite HX.
Qed.

Lemma resolve_render w loc :
  forallb plain loc = true → resolve w (render loc) = render loc.
Proof.
  intros Hp. unfold resolve. destruct loc as [|x l]; [reflexivity|].
  change (render (x :: l)) with (join (x :: l)).
  rewrite absolute_join, split_join by (assumption || discriminate).
  change (normalize [] ("" :: x :: l)) with (normalize [] (x :: l)).
  now rewrite normalize_plain.
Qed.

Lemma not_descendant S D :
  forallb plain S = true → forallb plain D = true →
  within S D = false →
  String.prefix (render S +:+ "/") (render D) = false.
Proof.
  intros HS HD Hw. destruct (String.prefix (render S +:+ "/") (render D)) eqn:Hp;
    [|reflexivity].
  assert (Hne : S ≠ []) by exact (not_within_nil _ _ Hw).
  destruct S as [|s S]; [congruence|]. unfold render at 1 in Hp.
  destruct D as [|d D].
  - cbn [render join] in Hp. rewrite !append_assoc in Hp.
    change ("/" +:+ ?x) with (String slash x) in Hp.
    apply prefix_cons in Hp as [_ Hp].
    cbn in HS. apply andb_prop in HS as [Hs _].
    destruct s as [|c s]; [discriminate Hs|discriminate Hp].
  - unfold render in Hp. rewrite (prefix_join _ _ HS HD Hne Hp) in Hw. discriminate.
Qed.

End Prefixes.

(** ** The overlap test on rendered locations *)

Module Overlap.
Import Posix PathStrings Trees Resolution Calls Prefixes.

Lemma split_slashless s : forallb slashless (split s) = true.
Proof.
  induction s as [|c s IH]; [reflexivity|]. cbn [split].
  destruct (Ascii.eqb c slash) eqn:Hc; [exact IH|].
  destruct (split s) as [|h t] eqn:E; [now apply split_not_nil in E|].
  cbn [forallb] in *. apply andb_prop in IH as [Hh Ht].
  rewrite Ht, andb_true_r. apply slashless_cons. split; [|exact Hh].
  now apply Ascii.eqb_neq.
Qed.

(** Normalisation leaves plain names only. *)
Lemma normalize_keeps_plain names stack :
  forallb plain stack = true → forallb slashless names = true →
  forallb plain (normalize stack names) = true.
Proof.
  revert stack. induction names as [|name rest IH]; intros stack Hs Hn; [exact Hs|].
  cbn [forallb] in Hn. apply andb_prop in Hn as [Hname Hrest]. cbn [normalize].
  destruct (stays name) eqn:Hstay; [now apply IH|].
  destruct (String.eqb name "..") eqn:Hup.
  - apply IH; [now apply forallb_removelast|exact Hrest].
  - apply IH; [|exact Hrest]. rewrite forallb_app, Hs. cbn.
    unfold plain. now rewrite Hstay, Hup, Hname.
Qed.

Lemma locus_plain w p :
  forallb plain (cwd w) = true → forallb plain (locus w p) = true.
Proof.
  intros Hcwd. unfold locus. apply normalize_keeps_plain; [|apply split_slashless].
  now destruct (absolute p).
Qed.

Lemma resolve_locus w p : resolve w p = render (locus w p).
Proof. reflexivity. Qed.

Lemma join_app a b : join (a ++ b) = join a +:+ join b.
Proof.
  induction a as [|x a IH]; [reflexivity|].
  cbn [app join]. now rewrite IH, !append_assoc.
Qed.

Lemma prefix_append a b c : String.prefix (a +:+ b) (a +:+ c) = String.prefix b c.
Proof.
  induction a as [|x a IH]; [reflexivity|].
  rewrite !append_cons. cbn [String.prefix]. now destruct (ascii_dec x x).
Qed.

Lemma within_split a b : within a b = true → ∃ rest, b = a ++ rest.
Proof.
  revert b. induction a as [|x a IH]; intros b Hw; [now exists b|].
  destruct b as [|y b]; [discriminate|].
  rewrite within_cons in Hw. apply andb_prop in Hw as [Hxy Hw].
  apply String.eqb_eq in Hxy as ->. destruct (IH _ Hw) as [rest ->]. now exists rest.
Qed.

(** Nothing starts with two slashes. *)
Lemma render_one_slash loc :
  forallb plain loc = true → String.prefix "//" (render loc) = false.
Proof.
  intros Hp. destruct loc as [|name rest]; [reflexivity|].
  cbn in Hp. apply andb_prop in Hp as [Hn _].
  unfold render. cbn [join]. change ("/" +:+ ?x) with (String slash x).
  destruct name as [|c name]; [discriminate Hn|].
  rewrite append_cons. cbn [String.prefix].
  apply plain_slashless, slashless_cons in Hn as [Hc _].
  destruct (ascii_dec "/" "/"); [|congruence].
  destruct (ascii_dec "/" c) as [<-|]; [now contradiction Hc|reflexivity].
Qed.

(** On rendered locations the test of copy.ts:105 and 108 is the
    proper-prefix test on the lists of names, unless the shorter one
    is the root. *)
Lemma descendant_locations A B :
  forallb plain A = true → forallb plain B = true →
  String.prefix (render A +:+ "/") (render B)
  = negb (bool_decide (A = [])) && proper A B.
Proof.
  intros HA HB. destruct A as [|a A].
  - cbn [render]. now rewrite render_one_slash.
  - rewrite bool_decide_eq_false_2 by discriminate. cbn [negb andb]. unfold proper.
    destruct (within (a :: A) B) eqn:Hw.
    + destruct (decide (a :: A = B)) as [<-|Hne].
      * rewrite bool_decide_eq_true_2 by reflexivity. cbn [negb andb].
        apply (startsWith_longer (render (a :: A)) "/"). discriminate.
      * rewrite bool_decide_eq_false_2 by exact Hne. cbn [negb andb].
        destruct (within_split _ _ Hw) as [rest ->].
        destruct rest as [|x rest]; [now rewrite app_nil_r in Hne|].
        unfold render. destruct ((a :: A) ++ x :: rest) eqn:E; [discriminate E|].
        rewrite <- E, join_app, prefix_append. cbn [join].
        change ("/" +:+ ?y) with (String slash y). apply prefix_cons. split; [reflexivity|].
        now destruct (x +:+ join rest).
    + cbn [andb]. now apply not_descendant.
Qed.

End Overlap.

(** ** What a call leaves alone *)

Module Frames.
Import Posix PathStrings Trees Resolution Calls Prefixes Overlap.

Lemma elsewhere_refl D w : elsewhere D w w.
Proof. now repeat split. Qed.

Lemma elsewhere_trans D w1 w2 w3 :
  elsewhere D w1 w2 → elsewhere D w2 w3 → elsewhere D w1 w3.
Proof.
  intros (Hc1 & Ht1 & Hn1 & Hg1) (Hc2 & Ht2 & Hn2 & Hg2).
  repeat split; try congruence.
  intros L H1 H2. now rewrite Hg2, Hg1.
Qed.

Lemma elsewhere_put D n w : elsewhere D w (with_root w (put D n (root w))).
Proof.
  repeat split. intros L H1 H2. rewrite root_with_root. now apply get_put_apart.
Qed.

Lemma elsewhere_del D w : elsewhere D w (with_root w (del D (root w))).
Proof.
  repeat split. intros L H1 H2. rewrite root_with_root. now apply get_del_apart.
Qed.

Lemma unlink_render_link w loc dest :
  forallb plain loc = true →
  is_directory (get (removelast loc) (root w)) = true →
  get loc (root w) = Some (Link dest) →
  unlinkSync (render loc) w = (Return tt, with_root w (del loc (root w))).
Proof.
  intros Hp Hdir Hg. unfold unlinkSync. rewrite lookup_render, Hg by assumption.
  reflexivity.
Qed.

Lemma dirname_render loc :
  forallb plain loc = true → loc ≠ [] → dirname (render loc) = render (removelast loc).
Proof.
  intros Hp Hne. destruct (removelast_app_last _ Hne) as [x Hx].
  rewrite Hx, forallb_app in Hp.
  apply andb_prop in Hp as [Hinit Hlast]. cbn in Hlast. rewrite andb_true_r in Hlast.
  rewrite Hx at 1. unfold render at 1.
  destruct (removelast loc ++ [x]) eqn:E; [now apply app_eq_nil in E as [_ ?]|].
  rewrite <- E. now apply dirname_join.
Qed.

Lemma set_child_child name c es : child name es = Some c → set_child name c es = es.
Proof.
  induction es as [|[n c'] es IH]; [discriminate|]. cbn.
  destruct (String.eqb n name) eqn:E.
  - now intros [= ->].
  - intros Hc. now rewrite IH.
Qed.

(** Writing at a location what is there already changes nothing. *)
Lemma put_get_same loc n tree : get loc tree = Some n → put loc n tree = tree.
Proof.
  revert tree. induction loc as [|name rest IH]; intros tree Hg.
  - cbn in *. congruence.
  - cbn [get] in Hg. destruct tree as [| |es]; try discriminate.
    destruct (child name es) as [c|] eqn:Hc; [|discriminate].
    destruct rest as [|r rest].
    + cbn in Hg. injection Hg as <-. cbn. now rewrite set_child_child.
    + rewrite put_deeper, Hc by discriminate. rewrite (IH _ Hg).
      now rewrite set_child_child.
Qed.


Lemma within_longer a b x : within (a ++ x :: b) a = false.
Proof.
  destruct (within (a ++ x :: b) a) eqn:Hw; [|reflexivity].
  apply within_split in Hw as [rest Hr]. apply (f_equal (@length string)) in Hr.
  rewrite !length_app in Hr. cbn in Hr. lia.
Qed.

End Frames.

(** ** Directories that [mkdirSync] has to make *)

Module Parents.
Import Posix PathStrings Trees Resolution Calls Prefixes Overlap Frames.







End Parents.

(** ** Paths that end in [..] *)

Module DotDot.
Import Posix PathStrings Trees Resolution Calls Prefixes Overlap Frames Parents.





Section OneTarget.
Variables (w : World) (T : list string) (x : string).
Hypothesis plain_T : forallb plain T = true.
Hypothesis plain_x : plain x = true.
Hypothesis T_dir : is_directory (get T (root w)) = true.

Local Abbreviation path := (join ((T ++ [x]) ++ [".."])).











End OneTarget.

End DotDot.

(** * The overlap check on the POSIX file system *)

Import PathStrings Trees Resolution Calls Prefixes Overlap Frames Parents DotDot.

(** X8.  On the POSIX file system the overlap check is the
    proper-prefix test on the resolved locations, name by name: with
    [S] and [D] the locations the two paths resolve to, the call throws
    [TargetInsideSource] exactly when [S] is a proper prefix of [D] and
    is not the root, otherwise [SourceInsideTarget] exactly when [D] is
    a proper prefix of [S] and is not the root, and otherwise passes. *)
Theorem overlap_check_is_by_names (source target : string) (st : Process Posix.World) :
  forallb Posix.plain (Posix.cwd (os st)) = true →
  let S := Posix.locus (os st) source in
  let D := Posix.locus (os st) target in
  checkOverlap source target st
  = if negb (bool_decide (S = [])) && Posix.proper S D
    then (Throw (TargetInsideSource source target), st)
    else if negb (bool_decide (D = [])) && Posix.proper D S
         then (Throw (SourceInsideTarget source target), st)
         else (Return tt, st).
Proof.
  intros Hcwd S D. rewrite checkOverlap_eq. unfold strictDescendant, startsWith.
  cbn [resolve Posix.platform]. change (@sep _ Posix.platform) with "/".
  rewrite !resolve_locus.
  fold S D. rewrite !descendant_locations by now apply locus_plain.
  reflexivity.
Qed.

(** X9.  A path that resolves to the root [/] never makes the overlap
    check throw, as source or as target, although every other path lies
    inside the root: the resolved root already ends with the separator. *)
Theorem root_passes_overlap_check (source target : string) (st : Process Posix.World) :
  forallb Posix.plain (Posix.cwd (os st)) = true →
  Posix.resolve (os st) source = "/" ∨ Posix.resolve (os st) target = "/" →
  checkOverlap source target st = (Return tt, st).
Proof.
  intros Hcwd Hroot. rewrite checkOverlap_eq. unfold strictDescendant, startsWith.
  cbn [resolve Posix.platform]. change (@sep _ Posix.platform) with "/".
  assert (Hnone : ∀ p q, Posix.resolve (os st) p = "/" →
            String.prefix (Posix.resolve (os st) p +:+ "/") (Posix.resolve (os st) q) = false
            ∧ String.prefix (Posix.resolve (os st) q +:+ "/") (Posix.resolve (os st) p)
              = false).
  { intros p q Hp. rewrite Hp. split.
    - rewrite resolve_locus. apply render_one_slash. now apply locus_plain.
    - destruct (String.prefix (Posix.resolve (os st) q +:+ "/") "/") eqn:Hpre;
        [|reflexivity].
      apply prefix_length in Hpre. rewrite length_append, resolve_locus in Hpre.
      destruct (Posix.locus (os st) q) as [|x l]; [cbn in Hpre; lia|].
      cbn [Posix.render Posix.join] in Hpre.
      change ("/" +:+ ?y) with (String Posix.slash y) in Hpre.
      cbn [String.length] in Hpre. lia. }
  destruct Hroot as [Hs|Ht].
  - destruct (Hnone source target Hs) as [-> ->]. reflexivity.
  - destruct (Hnone target source Ht) as [-> ->]. reflexivity.
Qed.

(** * Ordinary calls on the POSIX file system

    Source and target are given as the absolute, normalised path
    strings of two locations [S] and [D] made of plain names, neither
    of which lies within the other; the file system is [ordinary] for
    them.  Whatever the cache holds and however the tool behaves, the
    call then returns and the target holds what the source holds. *)

Section MirrorRun.
Variables (S D : list string) (es : list (string * Posix.node)).
Hypothesis plain_S : forallb Posix.plain S = true.
Hypothesis plain_D : forallb Posix.plain D = true.
Hypothesis apart_SD : Posix.within S D = false.
Hypothesis apart_DS : Posix.within D S = false.

Local Abbreviation source := (Posix.render S).
Local Abbreviation target := (Posix.render D).

Lemma ordinary_tidy_source (w : Posix.World) :
  Posix.ordinary S D es w → Posix.tidy (Posix.Directory es) = true.
Proof. intros (Ht & _ & Hs & _). eapply tidy_get; eassumption. Qed.

(** The removal block returns, and leaves a tree without the target;
    a target that is a link is removed as well when the link leads
    somewhere. *)
Lemma removeExisting_posix c l (w : Posix.World) :
  Posix.tidy (Posix.root w) = true →
  Posix.set_up S D es w →
  (Posix.is_link (Posix.get D (Posix.root w)) = true → Posix.existsSync target w = true) →
  ∃ t, removeExisting target (at_world c l w)
       = (Return tt, at_world c l (Posix.with_root w t))
       ∧ Posix.get D t = None
       ∧ Posix.tidy t = true
       ∧ Posix.set_up S D es (Posix.with_root w t)
       ∧ Posix.elsewhere D w (Posix.with_root w t).
Proof.
  intros Ht Hw Hl. pose proof Hw as [Hs Hp].
  pose proof (D_not_root S D apart_DS) as HD.
  unfold removeExisting, bind, peek, query, perform, at_world.
  cbn [existsSync lstatSync unlinkSync rmSync Posix.platform os rsyncAvailable logged].
  destruct (Posix.get D (Posix.root w)) as [n|] eqn:Hg.
  - assert (Hex : Posix.existsSync target w = true).
    { destruct (Posix.is_link (Some n)) eqn:Hn; [now apply Hl|].
      exact (exists_render w D plain_D Hp n Hg Hn). }
    rewrite Hex. cbn [os].
    rewrite (lstat_render w D plain_D Hp n Hg).
    exists (Posix.del D (Posix.root w)).
    split; [|split; [now apply get_del_same|split; [now apply tidy_del|
             split; [now apply set_up_del|apply elsewhere_del]]]].
    destruct n as [data|dest|ds].
    + cbn [Posix.stats_of isSymbolicLink isFile orb os].
      now rewrite (unlink_render w D plain_D Hp data Hg).
    + cbn [Posix.stats_of isSymbolicLink isFile orb os].
      now rewrite (unlink_render_link w D dest plain_D Hp Hg).
    + cbn [Posix.stats_of isSymbolicLink isFile orb os].
      now rewrite (rm_render w D plain_D Hp _ HD Hg).
  - rewrite (exists_render_missing w D plain_D Hp Hg).
    exists (Posix.root w). rewrite with_root_same.
    repeat split; try assumption.
Qed.

(** The fallback's copy returns and mirrors: the target is then a
    directory of its own that holds the source's entries. *)
Lemma copyWithNodeFs_posix c l (w : Posix.World) :
  Posix.tidy (Posix.root w) = true →
  Posix.set_up S D es w →
  (Posix.is_link (Posix.get D (Posix.root w)) = true → Posix.existsSync target w = true) →
  ∃ w', copyWithNodeFs source target (at_world c l w) = (Return tt, at_world c l w')
        ∧ Posix.get D (Posix.root w') = Some (Posix.Directory es)
        ∧ Posix.ordinary S D es w' ∧ Posix.mirrored S D es w'
        ∧ Posix.elsewhere D w w'.
Proof.
  intros Ht Hw Hl.
  assert (Hts : Posix.tidy (Posix.Directory es) = true)
    by (eapply tidy_get; [exact Ht|exact (proj1 Hw)]).
  destruct (removeExisting_posix c l w Ht Hw Hl) as (t & Hrm & Hnone & Htidy & Hw1 & He).
  set (w1 := Posix.with_root w t) in *.
  exists (Posix.with_root w1 (Posix.put D (Posix.Directory es) (Posix.root w1))).
  split; [|split; [|split; [now apply ordinary_put|split; [now apply mirrored_put|]]]].
  - unfold copyWithNodeFs. rewrite (bind_Return _ _ _ _ _ Hrm).
    unfold bind, perform, at_world.
    cbn [mkdirSync cpSync dirname Posix.platform os rsyncAvailable logged].
    rewrite (dirname_target S D plain_D apart_DS).
    rewrite mkdirSync_existing;
      [|now apply plain_parent|exact (proj2 Hw1)].
    cbn [os rsyncAvailable logged].
    now rewrite (cpSync_fresh S D es plain_S plain_D apart_SD apart_DS Hts w1 Hw1 Hnone).
  - rewrite root_with_root.
    apply get_put_same; [exact (D_not_root S D apart_DS)|exact (proj2 Hw1)].
  - eapply elsewhere_trans; [exact He|apply elsewhere_put].
Qed.

Lemma fsFallback_posix c l (w : Posix.World) :
  Posix.tidy (Posix.root w) = true →
  Posix.set_up S D es w →
  (Posix.is_link (Posix.get D (Posix.root w)) = true → Posix.existsSync target w = true) →
  ∃ st', fsFallback source target (at_world c l w) = (Return {| method := fs |}, st')
         ∧ Posix.get D (Posix.root (os st')) = Some (Posix.Directory es)
         ∧ Posix.ordinary S D es (os st') ∧ Posix.mirrored S D es (os st')
         ∧ Posix.elsewhere D w (os st')
         ∧ rsyncAvailable st' = c.
Proof.
  intros Ht Hw Hl.
  destruct (copyWithNodeFs_posix c l w Ht Hw Hl) as (w' & Hcopy & Hm).
  eexists. split.
  - unfold fsFallback. apply tryCatch_Return.
    rewrite (bind_Return _ _ _ _ _ Hcopy). reflexivity.
  - cbn [os rsyncAvailable logDebug emit snd at_world].
    destruct Hm as (? & ? & ? & ?). repeat (split; [assumption|]). reflexivity.
Qed.

(** A command that ends with a status other than 0 throws, or returns
    that status. *)
Lemma finish_failure (w : Posix.World) code err :
  code ≠ 0%Z →
  (∃ e, Posix.finish w code err = Throw e)
  ∨ Posix.finish w code err = Return {| exitCode := code; stderr := err |}.
Proof.
  intros Hne. unfold Posix.finish. apply Z.eqb_neq in Hne. rewrite Hne.
  destruct (Posix.nothrow w); cbn; eauto.
Qed.

Lemma copyWithRsync_fails c l (w : Posix.World) argv outcome :
  Posix.mkdirSync (Posix.dirname target) w = (Return tt, w) →
  argv = ["rsync"; "-a"; "--delete"; source +:+ "/"; target +:+ "/"] →
  Posix.shell argv w = (outcome, w) →
  ((∃ e, outcome = Throw e)
   ∨ ∃ code err, outcome = Return {| exitCode := code; stderr := err |} ∧ code ≠ 0%Z) →
  ∃ e, copyWithRsync source target (at_world c l w) = (Throw e, at_world c l w).
Proof.
  intros Hmk -> Hsh Hout.
  unfold copyWithRsync, bind, perform, at_world.
  cbn [mkdirSync dirname shell Posix.platform os rsyncAvailable logged].
  rewrite Hmk. cbn [os rsyncAvailable logged]. rewrite Hsh.
  destruct Hout as [[e ->]|(code & err & -> & Hne)]; [eauto|].
  cbn [exitCode stderr]. apply Z.eqb_neq in Hne. rewrite Hne. cbn. eauto.
Qed.

Lemma finish_outcome (w : Posix.World) code err :
  code ≠ 0%Z →
  (∃ e, Posix.finish w code err = Throw e)
  ∨ ∃ code' err', Posix.finish w code err
                  = Return {| exitCode := code'; stderr := err' |} ∧ code' ≠ 0%Z.
Proof.
  intros Hne. destruct (finish_failure w code err Hne) as [Hthrow|Hret]; eauto.
Qed.

(** The copy with the tool mirrors, or it throws and leaves the
    world as it was. *)
Lemma copyWithRsync_posix c l (w : Posix.World) :
  Posix.ordinary S D es w →
  (∃ w', copyWithRsync source target (at_world c l w) = (Return tt, at_world c l w')
         ∧ Posix.ordinary S D es w' ∧ Posix.mirrored S D es w'
         ∧ Posix.elsewhere D w w')
  ∨ ∃ e, copyWithRsync source target (at_world c l w) = (Throw e, at_world c l w).
Proof.
  intros Hf. pose proof (ordinary_tidy_source w Hf) as Hts.
  destruct Hf as (Ht & Hl & Hw). pose proof Hw as [Hs Hp].
  pose proof (D_not_root S D apart_DS) as HD.
  pose proof (S_not_root S D apart_SD) as HS.
  assert (Hmk : Posix.mkdirSync (Posix.dirname target) w = (Return tt, w)).
  { rewrite (dirname_target S D plain_D apart_DS).
    apply mkdirSync_existing; [now apply plain_parent|exact Hp]. }
  set (argv := ["rsync"; "-a"; "--delete"; source +:+ "/"; target +:+ "/"]).
  destruct (Posix.tool w) eqn:Htool.
  - right. eapply (copyWithRsync_fails c l w argv); [exact Hmk|reflexivity| |].
    + unfold argv, Posix.shell. rewrite Htool. reflexivity.
    + now apply finish_outcome.
  - assert (Hfrom : Posix.lookup true w (source +:+ "/") = Some S)
      by (eapply lookup_render_slash; eassumption).
    destruct (Posix.get D (Posix.root w)) as [[data|dest|ds]|] eqn:Hg;
      [| discriminate Hl | |].
    + right. eapply (copyWithRsync_fails c l w argv); [exact Hmk|reflexivity| |].
      * unfold argv, Posix.shell. rewrite Htool. unfold Posix.mirror.
        rewrite Hfrom, Hs.
        rewrite (lookup_render_slash_file w D data plain_D HD Hg).
        reflexivity.
      * now apply finish_outcome.
    + left. exists (Posix.with_root w (Posix.put D (Posix.Directory es) (Posix.root w))).
      split; [|split; [now apply ordinary_put|split; [now apply mirrored_put|
                                                      apply elsewhere_put]]].
      unfold copyWithRsync, bind, perform, at_world.
      cbn [mkdirSync dirname shell Posix.platform os rsyncAvailable logged].
      rewrite Hmk. cbn [os rsyncAvailable logged].
      unfold Posix.shell. rewrite Htool. unfold Posix.mirror.
      rewrite Hfrom, Hs.
      rewrite !(lookup_render_slash w D ds _ plain_D HD Hg), Hg.
      reflexivity.
    + left. exists (Posix.with_root w (Posix.put D (Posix.Directory es) (Posix.root w))).
      split; [|split; [now apply ordinary_put|split; [now apply mirrored_put|
                                                      apply elsewhere_put]]].
      unfold copyWithRsync, bind, perform, at_world.
      cbn [mkdirSync dirname shell Posix.platform os rsyncAvailable logged].
      rewrite Hmk. cbn [os rsyncAvailable logged].
      unfold Posix.shell. rewrite Htool. unfold Posix.mirror.
      rewrite Hfrom, Hs.
      rewrite (lookup_render_slash_missing w D plain_D HD Hp Hg), Hg.
      reflexivity.
  - right. eapply (copyWithRsync_fails c l w argv); [exact Hmk|reflexivity| |].
    + unfold argv, Posix.shell. rewrite Htool. reflexivity.
    + now apply finish_outcome.
Qed.

(** Detection returns a boolean and leaves the world alone; the
    boolean depends on the cache and on the installed tool only. *)
Lemma detectRsync_posix c l (w : Posix.World) :
  ∃ b, ∀ t, detectRsync (at_world c l (Posix.with_root w t))
            = (Return (Some b), at_world (Some b) l (Posix.with_root w t)).
Proof.
  destruct c as [b|].
  - exists b. intros t. now apply detectRsync_cached.
  - assert (Hsh : ∃ b, ∀ t, ∃ outcome,
              shell ["which"; "rsync"] (Posix.with_root w t)
              = (outcome, Posix.with_root w t) ∧ probeVerdict outcome = b).
    { cbn [shell Posix.platform]. unfold Posix.shell, Posix.with_root, Posix.finish.
      cbn [Posix.tool Posix.nothrow].
      destruct (Posix.tool w); [exists false|exists true|exists true]; intros t;
        try (eexists; split; reflexivity).
      destruct (Posix.nothrow w); eexists; split; reflexivity. }
    destruct Hsh as [b Hsh]. exists b. intros t.
    destruct (Hsh t) as (outcome & Hout & <-).
    now rewrite (detectRsync_probe (at_world None l (Posix.with_root w t)) outcome
                   (Posix.with_root w t) eq_refl Hout).
Qed.

(** A source that is a directory passes the source checks, and two
    locations apart from one another pass the overlap check. *)
Lemma passesValidation_source (w : Posix.World) :
  Posix.get S (Posix.root w) = Some (Posix.Directory es) →
  passesValidation source target w = true.
Proof.
  intros Hs. unfold passesValidation, strictDescendant, startsWith.
  cbn [statSync resolve sep sepChar Posix.platform].
  rewrite (stat_render w S plain_S
             (parent_of_existing _ _ _ (S_not_root S D apart_SD) Hs) _ Hs eq_refl).
  rewrite !resolve_render by assumption.
  change (String Posix.slash "") with "/".
  now rewrite !not_descendant.
Qed.

(** On an ordinary file system the run of the strategies returns,
    mirrors, and leaves the rest of the world alone. *)
Lemma runStrategies_posix c l (w : Posix.World) :
  Posix.ordinary S D es w →
  ∃ r st', runStrategies source target (at_world c l w) = (Return r, st')
           ∧ Posix.ordinary S D es (os st') ∧ Posix.mirrored S D es (os st')
           ∧ Posix.elsewhere D w (os st').
Proof.
  intros Hf.
  unfold runStrategies.
  destruct (detectRsync_posix c l w) as [b Hd]. specialize (Hd (Posix.root w)).
  rewrite with_root_same in Hd.
  assert (Hfirst :
    (∃ st', firstChoice source target (at_world c l w)
            = (Return (Some {| method := rsync |}), st')
            ∧ Posix.ordinary S D es (os st') ∧ Posix.mirrored S D es (os st')
            ∧ Posix.elsewhere D w (os st'))
    ∨ ∃ c' l', firstChoice source target (at_world c l w)
               = (Return None, at_world c' l' w)).
  { unfold firstChoice. rewrite (bind_Return _ _ _ _ _ Hd).
    destruct b; cbn [truthy]; [|right; eauto].
    destruct (copyWithRsync_posix (Some true) l w Hf) as [(w' & Hc & Hm)|[e Hc]].
    - left. rewrite (tryRsync_Return _ _ _ _ Hc). eauto.
    - right. rewrite (tryRsync_Throw _ _ _ _ _ Hc). cbn. unfold at_world. eauto. }
  destruct Hfirst as [(st' & Hfirst & Hm)|(c' & l' & Hfirst)];
    rewrite (bind_Return _ _ _ _ _ Hfirst).
  - eauto.
  - destruct Hf as (Ht & Hl & Hw).
    destruct (fsFallback_posix c' l' w Ht Hw) as (st' & Hrun & _ & Ho & Hm & He & _).
    { intros Hlink. congruence. }
    eauto 6.
Qed.

Lemma syncDirectory_posix (st : Process Posix.World) :
  Posix.ordinary S D es (os st) →
  ∃ r st', syncDirectory source target st = (Return r, st')
           ∧ Posix.ordinary S D es (os st') ∧ Posix.mirrored S D es (os st')
           ∧ Posix.elsewhere D (os st) (os st').
Proof.
  destruct st as [c w l]. cbn [os]. change (Build_Process _ c w l) with (at_world c l w).
  intros Hf.
  rewrite (syncDirectory_valid source target (at_world c l w)
             (passesValidation_source w (proj1 (proj2 (proj2 Hf))))).
  now apply runStrategies_posix.
Qed.



(** X12.  On an ordinary file system a call changes nothing but the
    target: the working directory and the tool are as before, and so
    is every entry at a location that neither lies within the target
    nor leads to it, the source among them. *)
Theorem ordinary_sync_changes_target_only (st : Process Posix.World) :
  Posix.ordinary S D es (os st) →
  ∃ r st', syncDirectory source target st = (Return r, st')
           ∧ Posix.cwd (os st') = Posix.cwd (os st)
           ∧ Posix.tool (os st') = Posix.tool (os st)
           ∧ ∀ L, Posix.within D L = false → Posix.within L D = false →
                  Posix.get L (Posix.root (os st')) = Posix.get L (Posix.root (os st)).
Proof.
  intros Hf.
  destruct (syncDirectory_posix st Hf) as (r & st' & Hrun & _ & _ & Hc & Ht & _ & Hg).
  eauto 6.
Qed.


End MirrorRun.

(** * Source and target that are the same path *)

Section SamePath.
Variables (S : list string) (es : list (string * Posix.node)).
Hypothesis plain_S : forallb Posix.plain S = true.
Hypothesis S_not_root : S ≠ [].

Local Abbreviation source := (Posix.render S).

Lemma passesValidation_same (w : Posix.World) :
  Posix.get S (Posix.root w) = Some (Posix.Directory es) →
  passesValidation source source w = true.
Proof.
  intros Hs. unfold passesValidation.
  cbn [statSync resolve Posix.platform].
  rewrite (stat_render w S plain_S (parent_of_existing _ _ _ S_not_root Hs) _ Hs eq_refl).
  cbn [Posix.stats_of isDirectory andb].
  unfold strictDescendant.
  now rewrite (startsWith_longer _ _ sep_not_empty).
Qed.

(** X14.  A call whose target is its source passes validation.  With
    the tool detected as unavailable the fallback then removes the
    target, which is the source, its copy throws for lack of a source,
    and the call throws with the directory gone.  With the tool at work
    the call returns [rsync] and the world is as it was. *)
Theorem same_path_depends_on_strategy (st : Process Posix.World) :
  Posix.tidy (Posix.root (os st)) = true →
  Posix.get S (Posix.root (os st)) = Some (Posix.Directory es) →
  (fst (detectRsync st) = Return (Some false) →
   ∃ e st', syncDirectory source source st = (Throw e, st')
            ∧ Posix.get S (Posix.root (os st')) = None
            ∧ Posix.existsSync source (os st') = false
            ∧ logged st' = logged st)
  ∧ (fst (detectRsync st) = Return (Some true) →
     Posix.tool (os st) = Posix.Works →
     ∃ st', syncDirectory source source st = (Return {| method := rsync |}, st')
            ∧ os st' = os st).
Proof.
  destruct st as [c w l]. cbn [os logged].
  change (Build_Process _ c w l) with (at_world c l w).
  intros Ht Hs.
  pose proof (parent_of_existing _ _ _ S_not_root Hs) as Hp.
  rewrite (syncDirectory_valid source source (at_world c l w) (passesValidation_same w Hs)).
  destruct (detectRsync_posix c l w) as [b Hb]. specialize (Hb (Posix.root w)).
  rewrite with_root_same in Hb. rewrite Hb. cbn [fst].
  assert (Hdirname : Posix.dirname source = Posix.render (removelast S))
    by now apply dirname_render.
  split.
  - intros [= ->]. rewrite (runStrategies_unavailable _ _ _ _ _ Hb eq_refl).
    set (w1 := Posix.with_root w (Posix.del S (Posix.root w))).
    assert (Hp1 : Posix.is_directory (Posix.get (removelast S) (Posix.root w1)) = true).
    { destruct (removelast_app_last _ S_not_root) as [x Hx]. unfold w1.
      rewrite root_with_root. rewrite Hx at 2. now apply del_keeps_directories. }
    assert (Hgone : Posix.get S (Posix.root w1) = None)
      by (unfold w1; rewrite root_with_root; now apply get_del_same).
    assert (Hcopy : copyWithNodeFs source source (at_world (Some false) l w)
                    = (Throw (Posix.ENOENT "cp" source), at_world (Some false) l w1)).
    { unfold copyWithNodeFs, removeExisting, bind, peek, query, perform, at_world.
      cbn [existsSync lstatSync rmSync mkdirSync cpSync dirname Posix.platform
           os rsyncAvailable logged].
      rewrite (exists_render w S plain_S Hp _ Hs eq_refl). cbn [os].
      rewrite (lstat_render w S plain_S Hp _ Hs).
      cbn [Posix.stats_of isSymbolicLink isFile orb os].
      rewrite (rm_render w S plain_S Hp _ S_not_root Hs). fold w1.
      cbn [os rsyncAvailable logged]. rewrite Hdirname.
      rewrite (mkdirSync_existing w1 _ (forallb_removelast _ _ plain_S) Hp1).
      cbn [os rsyncAvailable logged].
      unfold Posix.cpSync. rewrite (lookup_render w1 S plain_S Hp1), Hgone. reflexivity. }
    exists (Posix.ENOENT "cp" source), (at_world (Some false) l w1).
    split; [|split; [exact Hgone|split; [|reflexivity]]].
    + unfold fsFallback. rewrite (tryCatch_Throw _ _ _ _ _ (bind_Throw _ _ _ _ _ Hcopy)).
      unfold bind. rewrite cleanupPartial_eq, removeExisting_state.
      cbn [existsSync Posix.platform os at_world].
      now rewrite (exists_render_missing w1 S plain_S Hp1 Hgone).
    + exact (exists_render_missing w1 S plain_S Hp1 Hgone).
  - intros [= ->] Htool.
    assert (Hcopy : copyWithRsync source source (at_world (Some true) l w)
                    = (Return tt, at_world (Some true) l w)).
    { unfold copyWithRsync, bind, perform, at_world.
      cbn [mkdirSync dirname shell Posix.platform os rsyncAvailable logged].
      rewrite Hdirname.
      rewrite (mkdirSync_existing w _ (forallb_removelast _ _ plain_S) Hp).
      cbn [os rsyncAvailable logged].
      unfold Posix.shell. rewrite Htool. unfold Posix.mirror.
      rewrite !(lookup_render_slash w S es _ plain_S S_not_root Hs), Hs.
      rewrite (put_get_same _ _ _ Hs), with_root_same. reflexivity. }
    assert (Hfirst : firstChoice source source (at_world c l w)
                     = (Return (Some {| method := rsync |}),
                        snd (logDebug ("Copied " +:+ source +:+ " → " +:+ source
                                       +:+ " using rsync") (at_world (Some true) l w)))).
    { unfold firstChoice. rewrite (bind_Return _ _ _ _ _ Hb). cbn [truthy].
      now apply tryRsync_Return. }
    eexists. split.
    + unfold runStrategies. rewrite (bind_Return _ _ _ _ _ Hfirst). reflexivity.
    + reflexivity.
Qed.

End SamePath.

(** * A target whose parent directories are missing *)

Section MissingParents.
Variables (S A : list string) (b : string) (B : list string) (x : string).
Variable es : list (string * Posix.node).

Local Abbreviation D := (A ++ b :: B ++ [x]).
Local Abbreviation source := (Posix.render S).
Local Abbreviation target := (Posix.render D).

Hypothesis plain_S : forallb Posix.plain S = true.
Hypothesis plain_D : forallb Posix.plain D = true.
Hypothesis apart_SD : Posix.within S D = false.
Hypothesis apart_DS : Posix.within D S = false.




End MissingParents.

(** * A target that ends in [..]

    The target is written [T/x/..], with [T] an existing directory that
    has no entry [x]: a path that resolves to [T]. *)

Section DotDotRun.
Variables (S T : list string) (x : string) (old es : list (string * Posix.node)).
Hypothesis plain_S : forallb Posix.plain S = true.
Hypothesis plain_T : forallb Posix.plain T = true.
Hypothesis plain_x : Posix.plain x = true.
Hypothesis apart_ST : Posix.within S T = false.
Hypothesis apart_TS : Posix.within T S = false.

Local Abbreviation source := (Posix.render S).
Local Abbreviation target := (Posix.render T +:+ "/" +:+ x +:+ "/..").



End DotDotRun.

(** * The empty string as target *)

Section EmptyTarget.
Variables (S : list string) (es : list (string * Posix.node)).
Hypothesis plain_S : forallb Posix.plain S = true.

Local Abbreviation source := (Posix.render S).


End EmptyTarget.

(** * The module on the POSIX file system *)

(** The specification's first scenario, with the tool forced
    unavailable: the target ends up holding exactly [f.txt]. *)
Example scenario_fallback :
  let st := after (CallOverride (Some false)) (boot (Posix.scene Posix.Works)) in
  ∃ st', syncDirectory "/tmp/a" "/tmp/b" st = (Return {| method := fs |}, st')
         ∧ Posix.ls "/tmp/b" (os st') = Some [("f.txt", Posix.File "x")]
         ∧ Posix.ls "/tmp/a" (os st') = Some [("f.txt", Posix.File "x")].
Proof. eexists. split; [vm_compute; reflexivity|]. split; reflexivity. Qed.

(** The same scenario with the tool at work. *)
Example scenario_rsync :
  ∃ st', syncDirectory "/tmp/a" "/tmp/b" (boot (Posix.scene Posix.Works))
           = (Return {| method := rsync |}, st')
         ∧ Posix.ls "/tmp/b" (os st') = Some [("f.txt", Posix.File "x")]
         ∧ logged st' = [Debug "Copied /tmp/a → /tmp/b using rsync"].
Proof. eexists. split; [vm_compute; reflexivity|]. split; reflexivity. Qed.

(** With the tool at work the scripted platform sees two calls, the
    [mkdirSync] and the [rsync] command of [copyWithRsync], and none of
    the fallback's. *)
Example rsync_success_calls :
  let st := after (CallOverride (Some true)) (boot Scripted.allWell) in
  fst (syncDirectory "/srv/a" "/srv/b" st) = Return {| method := rsync |}
  ∧ Scripted.calls (os (snd (syncDirectory "/srv/a" "/srv/b" st)))
    = [["mkdirSync"; "/srv"]; ["$"; "rsync"; "-a"; "--delete"; "/srv/a/"; "/srv/b/"]]
  ∧ logged (snd (syncDirectory "/srv/a" "/srv/b" st))
    = [Debug "Copied /srv/a → /srv/b using rsync"].
Proof. repeat split. Qed.

(** The specification's second and third scenarios. *)
Example scenario_target_inside_source :
  syncDirectory "/tmp/a" "/tmp/a/sub" (boot (Posix.scene Posix.Absent))
  = (Throw (TargetInsideSource "/tmp/a" "/tmp/a/sub"), boot (Posix.scene Posix.Absent)).
Proof. reflexivity. Qed.

Example scenario_source_missing :
  syncDirectory "/tmp/missing" "/tmp/b" (boot (Posix.scene Posix.Absent))
  = (Throw (SourceNotFound "/tmp/missing"), boot (Posix.scene Posix.Absent)).
Proof. reflexivity. Qed.

(** Without the removal that precedes it, the recursive copy merges:
    this is what [copyWithNodeFs] removes the target for. *)
Example cpSync_alone_merges :
  Posix.ls "/tmp/b" (snd (Posix.cpSync "/tmp/a" "/tmp/b" (Posix.scene Posix.Absent)))
  = Some [("g.txt", Posix.File "y"); ("f.txt", Posix.File "x")].
Proof. reflexivity. Qed.

(** Source and target that resolve to the same path pass the overlap
    check; without the tool the fallback then removes the target, which
    is the source, and its copy fails for lack of a source. *)
Example equal_paths_reach_the_fallback :
  let st := boot (Posix.scene Posix.Absent) in
  fst (syncDirectory "/tmp/a" "/tmp/a" st)
  = Throw (Posix.ENOENT "cp" "/tmp/a")
  ∧ Posix.existsSync "/tmp/a" (os (snd (syncDirectory "/tmp/a" "/tmp/a" st))) = false.
Proof. split; reflexivity. Qed.

(** A strict descendant is a matter of strings: below the root [/],
    whose resolved form already ends with the separator, no path is
    one, and such a call passes validation. *)
Example nothing_is_strictly_below_the_root :
  let w := Posix.scene Posix.Absent in
  strictDescendant (resolve w "/tmp") (resolve w "/") = false
  ∧ passesValidation "/" "/tmp" w = true.
Proof. split; reflexivity. Qed.

(** [path.dirname] and [path.resolve] on a few paths. *)
Example dirname_is_lexical :
  Posix.dirname "/foo/bar/baz/asdf/quux" = "/foo/bar/baz/asdf"
  ∧ Posix.dirname "/tmp/b/" = "/tmp"
  ∧ Posix.dirname "b" = "."
  ∧ Posix.dirname "/" = "/"
  ∧ Posix.dirname "/tmp/b/x/.." = "/tmp/b/x"
  ∧ Posix.resolve (Posix.scene Posix.Absent) "/tmp/b/x/.." = "/tmp/b"
  ∧ Posix.resolve (Posix.scene Posix.Absent) "b/./c/" = "/home/b/c".
Proof. repeat split. Qed.

(** The three steps of [copyWithNodeFs "/tmp/a" "/tmp/b/x/.."] in the
    scene: the target does not exist as long as [x] is missing, so
    nothing is removed; the [mkdirSync] of its [dirname] creates [x]
    inside [/tmp/b]; the copy then lands next to [g.txt] and [x]. *)
Example steps_of_the_merge :
  let w := Posix.scene Posix.Absent in
  let w1 := snd (Posix.mkdirSync (Posix.dirname "/tmp/b/x/..") w) in
  let w2 := snd (Posix.cpSync "/tmp/a" "/tmp/b/x/.." w1) in
  Posix.existsSync "/tmp/b/x/.." w = false
  ∧ Posix.existsSync "/tmp/b" w = true
  ∧ Posix.ls "/tmp/b" w1 = Some [("g.txt", Posix.File "y"); ("x", Posix.Directory [])]
  ∧ Posix.existsSync "/tmp/b/x/.." w1 = true
  ∧ Posix.ls "/tmp/b" w2
    = Some [("g.txt", Posix.File "y"); ("x", Posix.Directory []);
            ("f.txt", Posix.File "x")].
Proof. repeat split. Qed.

(** C1, where the code departs from it.  Source [/tmp/a] is an
    existing directory and the target [/tmp/b/x/..] resolves to
    [/tmp/b], which does not overlap it.  With the tool absent the
    call returns [fs], and [/tmp/b] then holds the old [g.txt], the
    directory [x] that [mkdirSync(path.dirname(target))] made, and
    [f.txt]: a merge, not the source's contents.  With the tool at
    work the same call leaves exactly [f.txt]. *)
Theorem fallback_merges_into_dotdot_target :
  let source := "/tmp/a" in
  let target := "/tmp/b/x/.." in
  passesValidation source target (Posix.scene Posix.Absent) = true
  ∧ resolve (Posix.scene Posix.Absent) target = "/tmp/b"
  ∧ (∃ st', syncDirectory source target (boot (Posix.scene Posix.Absent))
              = (Return {| method := fs |}, st')
            ∧ Posix.ls source (os st') = Some [("f.txt", Posix.File "x")]
            ∧ Posix.ls target (os st')
              = Some [("g.txt", Posix.File "y"); ("x", Posix.Directory []);
                      ("f.txt", Posix.File "x")]
            ∧ Posix.ls "/tmp/b" (os st') = Posix.ls target (os st')
            ∧ Posix.ls target (os st') ≠ Posix.ls source (os st'))
  ∧ (∃ st', syncDirectory source target (boot (Posix.scene Posix.Works))
              = (Return {| method := rsync |}, st')
            ∧ Posix.ls "/tmp/b" (os st') = Some [("f.txt", Posix.File "x")]).
Proof.
  split; [reflexivity|]. split; [reflexivity|]. split.
  - eexists. split; [vm_compute; reflexivity|].
    repeat split; try reflexivity. vm_compute. discriminate.
  - eexists. split; [vm_compute; reflexivity|]. reflexivity.
Qed.

(** C9, where the code departs from it.  On the same input, one call
    leaves [g.txt], [x] and [f.txt] in the target; a second call,
    with the source unchanged, finds that [/tmp/b/x/..] now exists,
    removes [/tmp/b], and leaves [x] and [f.txt].  With the tool at
    work, one call and two calls both leave exactly [f.txt]. *)
Theorem second_sync_changes_dotdot_target :
  let source := "/tmp/a" in
  let target := "/tmp/b/x/.." in
  let once := syncDirectory source target (boot (Posix.scene Posix.Absent)) in
  let twice := syncDirectory source target (snd once) in
  let once' := syncDirectory source target (boot (Posix.scene Posix.Works)) in
  let twice' := syncDirectory source target (snd once') in
  (fst once = Return {| method := fs |}
   ∧ fst twice = Return {| method := fs |}
   ∧ Posix.ls source (os (snd once)) = Posix.ls source (Posix.scene Posix.Absent)
   ∧ Posix.ls source (os (snd twice)) = Posix.ls source (Posix.scene Posix.Absent)
   ∧ Posix.ls "/tmp/b" (os (snd once))
     = Some [("g.txt", Posix.File "y"); ("x", Posix.Directory []);
             ("f.txt", Posix.File "x")]
   ∧ Posix.ls "/tmp/b" (os (snd twice))
     = Some [("x", Posix.Directory []); ("f.txt", Posix.File "x")]
   ∧ Posix.ls "/tmp/b" (os (snd twice)) ≠ Posix.ls "/tmp/b" (os (snd once)))
  ∧ (fst once' = Return {| method := rsync |}
     ∧ fst twice' = Return {| method := rsync |}
     ∧ Posix.ls "/tmp/b" (os (snd once')) = Some [("f.txt", Posix.File "x")]
     ∧ Posix.ls "/tmp/b" (os (snd twice')) = Some [("f.txt", Posix.File "x")]).
Proof. repeat split; vm_compute; (reflexivity || discriminate). Qed.

(** C2 as it is written fails when the source is missing: the target
    [/tmp/missing/sub] is a strict descendant of [/tmp/missing], yet
    the call throws [SourceNotFound], which is not
    [TargetInsideSource]. *)
Lemma descendant_of_missing_source :
  let source := "/tmp/missing" in
  let target := "/tmp/missing/sub" in
  let w := Posix.scene Posix.Absent in
  strictDescendant (resolve w target) (resolve w source) = true
  ∧ fst (syncDirectory source target (boot w)) = Throw (SourceNotFound source)
  ∧ fst (syncDirectory source target (boot w)) ≠ Throw (TargetInsideSource source target).
Proof. split; [reflexivity|]. split; [reflexivity|]. vm_compute. discriminate. Qed.

(** * The theorems at concrete inputs *)

Lemma source_checks_come_first_witness :
  let st := boot (Posix.scene Posix.Absent) in
  (statSync "/tmp/missing" (os st) = Throw (Posix.ENOENT "stat" "/tmp/missing")
   ∧ syncDirectory "/tmp/missing" "/tmp/missing/sub" st
     = (Throw (SourceNotFound "/tmp/missing"), st))
  ∧ (statSync "/tmp/a/f.txt" (os st) = Return (Posix.stats_of (Posix.File "x"))
     ∧ syncDirectory "/tmp/a/f.txt" "/tmp/b" st
       = (Throw (SourceNotDirectory "/tmp/a/f.txt"), st)).
Proof.
  intros st.
  assert (Hmissing : statSync "/tmp/missing" (os st)
                     = Throw (Posix.ENOENT "stat" "/tmp/missing")) by reflexivity.
  assert (Hfile : statSync "/tmp/a/f.txt" (os st)
                  = Return (Posix.stats_of (Posix.File "x"))) by reflexivity.
  split; (split; [assumption|]).
  - exact (proj1 (source_checks_come_first "/tmp/missing" "/tmp/missing/sub" st)
                 _ Hmissing).
  - exact (proj2 (source_checks_come_first "/tmp/a/f.txt" "/tmp/b" st)
                 _ Hfile eq_refl).
Defined.

Lemma overlap_rejected_untouched_witness :
  let st := boot (Posix.scene Posix.Absent) in
  let s := Posix.stats_of (Posix.Directory []) in
  statSync "/tmp/a" (os st) = Return s
  ∧ isDirectory s = true
  ∧ strictDescendant (resolve (os st) "/tmp/a/sub") (resolve (os st) "/tmp/a") = true
  ∧ syncDirectory "/tmp/a" "/tmp/a/sub" st
    = (Throw (TargetInsideSource "/tmp/a" "/tmp/a/sub"), st)
  ∧ strictDescendant (resolve (os st) "/tmp/a") (resolve (os st) "/tmp") = true
  ∧ syncDirectory "/tmp/a" "/tmp" st
    = (Throw (SourceInsideTarget "/tmp/a" "/tmp"), st).
Proof.
  intros st s.
  assert (Hstat : statSync "/tmp/a" (os st) = Return s) by reflexivity.
  assert (Hdir : isDirectory s = true) by reflexivity.
  assert (Hin : strictDescendant (resolve (os st) "/tmp/a/sub") (resolve (os st) "/tmp/a")
                = true) by reflexivity.
  assert (Hout : strictDescendant (resolve (os st) "/tmp/a") (resolve (os st) "/tmp")
                 = true) by reflexivity.
  repeat (split; [assumption|]). split.
  - exact (proj1 (overlap_rejected_untouched "/tmp/a" "/tmp/a/sub" st s Hstat Hdir) Hin).
  - split; [assumption|].
    exact (proj2 (overlap_rejected_untouched "/tmp/a" "/tmp" st s Hstat Hdir) Hout).
Defined.

Lemma equal_paths_pass_overlap_check_witness :
  let st := boot (Posix.scene Posix.Absent) in
  resolve (os st) "/tmp/b/../a" = resolve (os st) "/tmp/a"
  ∧ checkOverlap "/tmp/a" "/tmp/b/../a" st = (Return tt, st)
  ∧ syncDirectory "/tmp/a" "/tmp/b/../a" st = runStrategies "/tmp/a" "/tmp/b/../a" st.
Proof.
  intros st.
  assert (Heq : resolve (os st) "/tmp/b/../a" = resolve (os st) "/tmp/a") by reflexivity.
  split; [assumption|].
  destruct (equal_paths_pass_overlap_check "/tmp/a" "/tmp/b/../a" st Heq)
    as (Hcheck & _ & Hrun).
  split; [exact Hcheck|].
  exact (Hrun (Posix.stats_of (Posix.Directory [])) eq_refl eq_refl).
Defined.

Lemma detectRsync_never_throws_witness :
  let st := boot (Posix.scene Posix.Absent) in
  let outcome := Throw (JsError "Failed with exit code 1") in
  rsyncAvailable st = None
  ∧ shell ["which"; "rsync"] (os st) = (outcome, os st)
  ∧ detectRsync st
    = (Return (Some false), {| rsyncAvailable := Some false; os := os st; logged := [] |}).
Proof.
  intros st outcome.
  assert (Hcache : rsyncAvailable st = None) by reflexivity.
  assert (Hprobe : shell ["which"; "rsync"] (os st) = (outcome, os st))
    by (vm_compute; reflexivity).
  split; [assumption|]. split; [assumption|].
  exact (proj1 (proj2 (detectRsync_never_throws st) Hcache outcome (os st) Hprobe)).
Defined.

Lemma cache_invariant_witness :
  let st := after (CallOverride (Some true)) (boot (Posix.scene Posix.Absent)) in
  let calls := [CallDetect; CallSync "/tmp/a" "/tmp/b"; CallDetect] in
  rsyncAvailable st = Some true
  ∧ detectRsync st = (Return (Some true), st)
  ∧ detectRsync (afterAll calls st) = (Return (Some true), afterAll calls st)
  ∧ rsyncAvailable (after CallReset st) = None.
Proof.
  intros st calls.
  assert (Hcache : rsyncAvailable st = Some true) by reflexivity.
  destruct (cache_invariant st true Hcache) as (Hdetect & Hlater & Hunknown).
  split; [assumption|]. split; [exact Hdetect|]. split.
  - exact (Hlater calls eq_refl).
  - exact (proj2 (Hunknown CallReset) (or_introl eq_refl)).
Defined.

Lemma outcome_names_strategy_witness :
  let source := "/tmp/a" in
  let target := "/tmp/b" in
  let st := boot (Posix.scene Posix.Works) in
  let st1 := snd (detectRsync st) in
  let st2 := snd (copyWithRsync source target st1) in
  passesValidation source target (os st) = true
  ∧ detectRsync st = (Return (Some true), st1)
  ∧ copyWithRsync source target st1 = (Return tt, st2)
  ∧ syncDirectory source target st
    = (Return {| method := rsync |},
       snd (logDebug ("Copied " +:+ source +:+ " → " +:+ target +:+ " using rsync") st2)).
Proof.
  intros source target st st1 st2.
  assert (Hvalid : passesValidation source target (os st) = true) by reflexivity.
  assert (Hdetect : detectRsync st = (Return (Some true), st1)) by reflexivity.
  assert (Hcopy : copyWithRsync source target st1 = (Return tt, st2))
    by (vm_compute; reflexivity).
  repeat (split; [assumption|]).
  exact (proj2 (proj2 (outcome_names_strategy source target st st1 (Some true)
                         Hvalid Hdetect)) eq_refl st2 Hcopy).
Defined.

Lemma rsync_failure_falls_back_witness :
  let source := "/tmp/a" in
  let target := "/tmp/b" in
  let st := boot (Posix.scene (Posix.Fails 12 "rsync error: error in rsync protocol data stream")) in
  let st1 := snd (detectRsync st) in
  let e := JsError "Failed with exit code 12" in
  let line := Error "rsync failed, falling back to fs: Failed with exit code 12" in
  passesValidation source target (os st) = true
  ∧ detectRsync st = (Return (Some true), st1)
  ∧ copyWithRsync source target st1 = (Throw e, st1)
  ∧ ∃ st5, syncDirectory source target st = (Return {| method := fs |}, st5)
           ∧ Posix.ls target (os st5) = Some [("f.txt", Posix.File "x")]
           ∧ line ∈ logged st5.
Proof.
  intros source target st st1 e line.
  assert (Hvalid : passesValidation source target (os st) = true) by reflexivity.
  assert (Hdetect : detectRsync st = (Return (Some true), st1)) by reflexivity.
  assert (Hcopy : copyWithRsync source target st1 = (Throw e, st1))
    by (vm_compute; reflexivity).
  repeat (split; [assumption|]).
  destruct (rsync_failure_falls_back source target st st1 st1 e Hvalid Hdetect Hcopy)
    as [_ Hfallback].
  destruct (Hfallback _ eq_refl) as (st5 & Hrun & Hos & Hline).
  exists st5. split; [exact Hrun|]. split; [|exact Hline].
  rewrite Hos. reflexivity.
Defined.

Lemma fallback_failure_rethrown_witness :
  let source := "/srv/a" in
  let target := "/srv/b" in
  let st := after (CallOverride (Some false)) (boot Scripted.fullDisk) in
  let e := JsError "ENOSPC: no space left on device, write" in
  let st2 := snd (copyWithNodeFs source target st) in
  passesValidation source target (os st) = true
  ∧ firstChoice source target st = (Return None, st)
  ∧ copyWithNodeFs source target st = (Throw e, st2)
  ∧ fst (removeExisting target st2)
    = Throw (JsError "EBUSY: resource busy or locked, rm")
  ∧ fst (syncDirectory source target st) = Throw e
  ∧ Scripted.calls (os (snd (syncDirectory source target st)))
    = [["rmSync"; target]; ["mkdirSync"; "/srv"]; ["cpSync"; source; target];
       ["rmSync"; target]].
Proof.
  intros source target st e st2.
  assert (Hvalid : passesValidation source target (os st) = true) by reflexivity.
  assert (Hfirst : firstChoice source target st = (Return None, st)) by reflexivity.
  assert (Hcopy : copyWithNodeFs source target st = (Throw e, st2)) by reflexivity.
  repeat (split; [assumption|]).
  split; [reflexivity|].
  destruct (fallback_failure_rethrown source target st st st2 e Hvalid Hfirst Hcopy)
    as (Hrun & _ & _).
  rewrite Hrun. split; reflexivity.
Defined.



Lemma returned_call_log_witness :
  let source := "/tmp/a" in
  let target := "/tmp/b" in
  let st := boot (Posix.scene (Posix.Fails 12 "rsync error: error in rsync protocol data stream")) in
  let st' := snd (syncDirectory source target st) in
  syncDirectory source target st = (Return {| method := fs |}, st')
  ∧ ((rsyncAvailable st' = Some false
      ∧ logged st'
        = logged st
          ++ [Debug ("Copied " +:+ source +:+ " → " +:+ target +:+ " using fs.cpSync")])
     ∨ (rsyncAvailable st' = Some true
        ∧ ∃ e, logged st'
               = logged st
                 ++ [Error ("rsync failed, falling back to fs: " +:+ errorMessage e);
                     Debug ("Copied " +:+ source +:+ " → " +:+ target
                            +:+ " using fs.cpSync")])).
Proof.
  intros source target st st'.
  assert (Hrun : syncDirectory source target st = (Return {| method := fs |}, st'))
    by (vm_compute; reflexivity).
  split; [exact Hrun|].
  exact (returned_call_log source target st st' {| method := fs |} Hrun).
Defined.

Lemma thrown_call_classified_witness :
  let source := "/srv/a" in
  let target := "/srv/b" in
  let st := after (CallOverride (Some false)) (boot Scripted.fullDisk) in
  let e := JsError "ENOSPC: no space left on device, write" in
  let st' := snd (syncDirectory source target st) in
  syncDirectory source target st = (Throw e, st')
  ∧ ((st' = st
      ∧ (e = SourceNotFound source ∨ e = SourceNotDirectory source
         ∨ e = TargetInsideSource source target ∨ e = SourceInsideTarget source target))
     ∨ (∃ st1 st2, copyWithNodeFs source target st1 = (Throw e, st2)
                   ∧ st' = snd (removeExisting target st2)
                   ∧ ((rsyncAvailable st' = Some false ∧ logged st' = logged st)
                      ∨ (rsyncAvailable st' = Some true
                         ∧ ∃ e', logged st'
                                 = logged st
                                   ++ [Error ("rsync failed, falling back to fs: "
                                              +:+ errorMessage e')])))).
Proof.
  intros source target st e st'.
  assert (Hrun : syncDirectory source target st = (Throw e, st')) by reflexivity.
  split; [exact Hrun|].
  exact (thrown_call_classified source target st st' e Hrun).
Defined.

Lemma forced_fallback_runs_no_command_witness :
  let st := after (CallOverride (Some false)) (boot (Posix.scene Posix.Works)) in
  let sh := λ (_ : list string) (w : Posix.World),
              (@Throw ShellOutput (JsError "no shell"),
               Posix.with_root w (Posix.Directory [])) in
  rsyncAvailable st = Some false
  ∧ @syncDirectory _ (withShell Posix.platform sh) "/tmp/a" "/tmp/b" st
    = @syncDirectory _ Posix.platform "/tmp/a" "/tmp/b" st.
Proof.
  intros st sh.
  assert (Hcache : rsyncAvailable st = Some false) by reflexivity.
  split; [exact Hcache|].
  exact (forced_fallback_runs_no_command Posix.platform sh "/tmp/a" "/tmp/b" st Hcache).
Defined.

Lemma overlap_check_is_by_names_witness :
  let st := boot (Posix.scene Posix.Absent) in
  forallb Posix.plain (Posix.cwd (os st)) = true
  ∧ checkOverlap "/tmp/a" "/tmp/ab" st = (Return tt, st)
  ∧ checkOverlap "/tmp/a" "../tmp/./a/sub" st
    = (Throw (TargetInsideSource "/tmp/a" "../tmp/./a/sub"), st)
  ∧ checkOverlap "a/b" "/home/a" st = (Throw (SourceInsideTarget "a/b" "/home/a"), st).
Proof.
  intros st.
  assert (Hcwd : forallb Posix.plain (Posix.cwd (os st)) = true) by reflexivity.
  split; [exact Hcwd|]. split; [|split].
  - exact (overlap_check_is_by_names "/tmp/a" "/tmp/ab" st Hcwd).
  - exact (overlap_check_is_by_names "/tmp/a" "../tmp/./a/sub" st Hcwd).
  - exact (overlap_check_is_by_names "a/b" "/home/a" st Hcwd).
Defined.

Lemma root_passes_overlap_check_witness :
  let st := boot (Posix.scene Posix.Absent) in
  forallb Posix.plain (Posix.cwd (os st)) = true
  ∧ Posix.resolve (os st) "/" = "/"
  ∧ Posix.resolve (os st) "/tmp/.." = "/"
  ∧ checkOverlap "/" "/tmp/b" st = (Return tt, st)
  ∧ checkOverlap "/tmp/a" "/tmp/.." st = (Return tt, st).
Proof.
  intros st.
  assert (Hcwd : forallb Posix.plain (Posix.cwd (os st)) = true) by reflexivity.
  assert (Hsource : Posix.resolve (os st) "/" = "/") by reflexivity.
  assert (Htarget : Posix.resolve (os st) "/tmp/.." = "/") by reflexivity.
  repeat (split; [assumption|]). split.
  - exact (root_passes_overlap_check "/" "/tmp/b" st Hcwd (or_introl Hsource)).
  - exact (root_passes_overlap_check "/tmp/a" "/tmp/.." st Hcwd (or_intror Htarget)).
Defined.

Lemma ordinary_sync_changes_target_only_witness :
  let S := ["tmp"; "a"] in
  let D := ["tmp"; "b"] in
  let es := [("f.txt", Posix.File "x")] in
  let st := boot (Posix.scene Posix.Works) in
  Posix.ordinary S D es (os st)
  ∧ ∃ r st', syncDirectory "/tmp/a" "/tmp/b" st = (Return r, st')
             ∧ Posix.get ["home"] (Posix.root (os st')) = Some (Posix.Directory [])
             ∧ Posix.get ["tmp"; "a"; "f.txt"] (Posix.root (os st')) = Some (Posix.File "x").
Proof.
  intros S D es st.
  assert (Hord : Posix.ordinary S D es (os st)) by (repeat split; reflexivity).
  split; [exact Hord|].
  destruct (ordinary_sync_changes_target_only S D es eq_refl eq_refl eq_refl eq_refl st Hord)
    as (r & st' & Hrun & _ & _ & Hrest).
  exists r, st'. split; [exact Hrun|]. split.
  - exact (Hrest ["home"] eq_refl eq_refl).
  - exact (Hrest ["tmp"; "a"; "f.txt"] eq_refl eq_refl).
Defined.


Lemma same_path_depends_on_strategy_witness :
  let S := ["tmp"; "a"] in
  let es := [("f.txt", Posix.File "x")] in
  let without := boot (Posix.scene Posix.Absent) in
  let with_tool := boot (Posix.scene Posix.Works) in
  Posix.tidy (Posix.root (os without)) = true
  ∧ Posix.get S (Posix.root (os without)) = Some (Posix.Directory es)
  ∧ fst (detectRsync without) = Return (Some false)
  ∧ (∃ e st', syncDirectory "/tmp/a" "/tmp/a" without = (Throw e, st')
              ∧ Posix.get S (Posix.root (os st')) = None
              ∧ Posix.existsSync "/tmp/a" (os st') = false
              ∧ logged st' = logged without)
  ∧ fst (detectRsync with_tool) = Return (Some true)
  ∧ Posix.tool (os with_tool) = Posix.Works
  ∧ ∃ st', syncDirectory "/tmp/a" "/tmp/a" with_tool = (Return {| method := rsync |}, st')
           ∧ os st' = os with_tool.
Proof.
  intros S es without with_tool.
  assert (Htidy : Posix.tidy (Posix.root (os without)) = true) by reflexivity.
  assert (Hsource : Posix.get S (Posix.root (os without)) = Some (Posix.Directory es))
    by reflexivity.
  assert (Hnone : fst (detectRsync without) = Return (Some false)) by reflexivity.
  assert (Hsome : fst (detectRsync with_tool) = Return (Some true)) by reflexivity.
  assert (Htool : Posix.tool (os with_tool) = Posix.Works) by reflexivity.
  split; [exact Htidy|]. split; [exact Hsource|]. split; [exact Hnone|]. split.
  - exact (proj1 (same_path_depends_on_strategy S es eq_refl ltac:(discriminate)
                    without Htidy Hsource) Hnone).
  - split; [exact Hsome|]. split; [exact Htool|].
    exact (proj2 (same_path_depends_on_strategy S es eq_refl ltac:(discriminate)
                    with_tool Htidy Hsource) Hsome Htool).
Defined.



